(** * burda::ct::hash_map — a shallow embedding of
      include/constexpr_hash_map/constexpr_hash_map.hpp

    The container is a [std::array<std::pair<K, V>, N>] searched from left to
    right by a recursion over the template arguments [L] and [R]; keys of type
    [const char*] are compared character by character.

    Conventions of the embedding:
    - an evaluation either yields a value or is undefined (a read outside an
      object, a dereference of the past-the-end iterator); during constant
      evaluation the compiler rejects the latter.  Evaluations also count the
      comparisons they make;
    - a [const_iterator] is the offset of the pointed element from
      [std::cbegin(data)], so that [cend()] is the offset [N];
    - a [const V&] into the array of the container is modelled by the value
      it refers to, the array living as long as the container; the reference
      member of the pair [at] returns can also refer to a temporary, and is
      a [reference], which records whether the object it refers to is still
      alive. *)

From Stdlib Require Import Ascii Lia.
From Stdlib Require String.
From Equations Require Import Equations.
From stdpp Require Import base decidable option list vector strings.

Set Default Proof Using "Type*".
Local Open Scope nat_scope.

(** ** Evaluations: a result or undefined behaviour, and a comparison count *)

Module Evaluation.

Record t (A : Type) : Type := Make {
  result : option A;     (* [None]: the evaluation is undefined *)
  comparisons : nat      (* number of comparisons evaluated so far *)
}.
Arguments Make {A} _ _.
Arguments result {A} _.
Arguments comparisons {A} _.

Definition ret {A} (a : A) : t A := Make (Some a) 0.

Definition undefined {A} : t A := Make None 0.

Definition bind {A B} (m : t A) (f : A → t B) : t B :=
  match result m with
  | Some a => Make (result (f a)) (comparisons m + comparisons (f a))
  | None => Make None (comparisons m)
  end.

(** One comparison whose outcome is [r]. *)
Definition compare (r : option bool) : t bool := Make r 1.

(** A load that may fall outside the object it reads. *)
Definition load {A} (r : option A) : t A := Make r 0.

End Evaluation.

Notation "x ←' m ; f" := (Evaluation.bind m (λ x, f))
  (at level 100, m at next level, f at level 200, right associativity,
   format "x  ←'  m ;  '/' f").

(** ** Key equality: the overload set [equal] *)

(** [equal a b] is [None] when evaluating the comparison is undefined. *)
Class Equal (K : Type) := equal : K → K → option bool.

(** [template <typename T = K> equal(const T& a, const T& b) { return a == b; }]
    for a key type whose [operator==] is [eqb]. *)
Definition equal_generic {K} (eqb : K → K → bool) : Equal K :=
  λ a b, Some (eqb a b).

(** [V{}], the value-initialised [V]. *)
Class DefaultConstructible (V : Type) := value_init : V.

(** The [const V&] member of a [std::pair<bool, const V&>]: it refers to an
    object that is alive, or to a temporary that was destroyed at the end of
    the full-expression that created it. *)
Inductive reference (V : Type) : Type :=
| Live (v : V)      (* the object is alive and holds [v] *)
| Expired (v : V).  (* the object was a temporary, which held [v] *)
Arguments Live {V} _.
Arguments Expired {V} _.

(** Reading through a reference: undefined once the object is destroyed. *)
Definition read {V} (r : reference V) : Evaluation.t V :=
  match r with
  | Live v => Evaluation.ret v
  | Expired _ => Evaluation.undefined
  end.

(** ** The container *)

Definition inspect {A} (a : A) : {b : A | a = b} := exist _ a eq_refl.

Definition static_assert (cond : bool) : option unit :=
  if cond then Some () else None.

(** [data{std::forward<E>(elements)...}]: the initialisers fill the array in
    order.  The constructor asserts [N == sizeof...(elements)], so that only
    the case of as many initialisers as elements matters; no array is given
    for another count (C++ rejects a longer list and would value-initialise
    the elements a shorter list leaves). *)
Fixpoint array_init {A} (N : nat) (elements : list A) : option (vec A N) :=
  match N with
  | 0 => match elements with [] => Some [#] | _ :: _ => None end
  | S n =>
      match elements with
      | [] => None
      | x :: rest => vcons x <$> array_init n rest
      end
  end.

Module ct.

Record hash_map (N : nat) (K V : Type) : Type := HashMap {
  data : vec (K * V) N
}.
Arguments HashMap {N K V} _.
Arguments data {N K V} _.

Definition const_iterator := nat.

Section members.
Context {K V : Type} `{!Equal K}.

(** The constructor; [None] when the program is rejected. *)
Definition make (N : nat) (elements : list (K * V))
  : option (hash_map N K V) :=
  _ ← static_assert (0 <? N);
  _ ← static_assert (N =? length elements);
  HashMap <$> array_init N elements.

Context {N : nat}.

Definition cbegin (self : hash_map N K V) : const_iterator := 0.
Definition cend (self : hash_map N K V) : const_iterator :=
  length (vec_to_list (data self)).
Definition begin (self : hash_map N K V) : const_iterator := cbegin self.
Definition end_ (self : hash_map N K V) : const_iterator := cend self.

(** [std::next(it, n)] *)
Definition next (it : const_iterator) (n : nat) : const_iterator := it + n.

Definition size (self : hash_map N K V) : nat :=
  length (vec_to_list (data self)).

Definition empty (self : hash_map N K V) : bool := false.

Context (self : hash_map N K V).

(** [data[i]] and [*it]: defined on the elements of the array only. *)
Definition subscript (i : nat) : Evaluation.t (K * V) :=
  Evaluation.load (vec_to_list (data self) !! i).
Definition deref (it : const_iterator) : Evaluation.t (K * V) :=
  Evaluation.load (vec_to_list (data self) !! (it : nat)).

Equations search (L R : nat) (key : K) : Evaluation.t const_iterator
  by wf (R - L) lt :=
  search L R key with decide (L < R) := {
    | left _ =>
        e ←' subscript L;
        b ←' Evaluation.compare (equal e.1 key);
        if b : bool then Evaluation.ret (next (cbegin self) L)
        else search (S L) R key
    | right _ => Evaluation.ret (cend self) }.
Next Obligation. lia. Qed.

Definition find (key : K) : Evaluation.t const_iterator :=
  search 0 N key.

(** [return {true, it->second}] binds the reference of the pair to an
    element of the array.  [return {false, {}}] binds it to a temporary
    [V{}] made for the parameter of the constructor of the pair; the
    temporary is destroyed when the [return] statement ends. *)
Definition at_ `{!DefaultConstructible V} (key : K)
  : Evaluation.t (bool * reference V) :=
  it ←' find key;
  if bool_decide (it ≠ cend self) then
    e ←' deref it;
    Evaluation.ret (true, Live e.2)
  else Evaluation.ret (false, Expired value_init).

Definition operator_subscript (key : K) : Evaluation.t V :=
  it ←' find key;
  e ←' deref it;
  Evaluation.ret e.2.

Definition contains (key : K) : Evaluation.t bool :=
  it ←' search 0 N key;
  Evaluation.ret (bool_decide (it ≠ cend self)).

(** [for (const auto& e : map) acc = body(acc, e);], that is
    [for (auto it = begin(); it != end(); ++it) ...]. *)
Equations range_for {A} (body : A → K * V → A) (it : const_iterator)
  (acc : A) : Evaluation.t A by wf (end_ self - it) lt :=
  range_for body it acc with decide (it = end_ self) := {
    | left _ => Evaluation.ret acc
    | right _ with inspect (vec_to_list (data self) !! (it : nat)) := {
        | exist _ (Some e) _ => range_for body (S it) (body acc e)
        | exist _ None _ => Evaluation.undefined } }.
Next Obligation.
  intros A _ it e Hload _ _ _. simpl in Hload.
  apply lookup_lt_Some in Hload. unfold end_, cend. lia.
Qed.

(** The entries a range-based [for] visits, in the order of the visits. *)
Definition for_each : Evaluation.t (list (K * V)) :=
  range_for (λ acc e, acc ++ [e]) (begin self) [].

End members.
End ct.

(** ** Keys of type [const char*] *)

Module cstring.

(** A [const char*]: the array of [char] it points into and the offset in
    that array.  Two string literals are two arrays. *)
Record pointer : Type := Pointer { block : nat; offset : nat }.

Definition memory := list (list ascii).

(** The array of a string literal: its characters and the terminator. *)
Definition literal (s : String.string) : list ascii :=
  String.list_ascii_of_string s ++ [zero].

(** [*p] *)
Definition load (m : memory) (p : pointer) : option ascii :=
  chars ← m !! block p; chars !! offset p.

(** [p + n] *)
Definition advance (p : pointer) (n : nat) : pointer :=
  Pointer (block p) (offset p + n).

Definition extent (m : memory) (p : pointer) : nat :=
  from_option length 0 (m !! block p).

(** [equal(char const* a, char const* b)]: the characters [*a] and [*b]
    are compared; when they are the same, the comparison ends with [true]
    at the terminator and goes on with [a + 1] and [b + 1] otherwise
    ([&&] and [||] evaluate their right operand only when needed). *)
Equations equal (m : memory) (a b : pointer) : Evaluation.t bool
  by wf (extent m a - offset a) lt :=
  equal m a b with inspect (load m a) := {
    | exist _ (Some x) _ =>
        y ←' Evaluation.load (load m b);
        same ←' Evaluation.compare (Some (Ascii.eqb x y));
        if same : bool then
          last ←' Evaluation.compare (Some (Ascii.eqb x zero));
          if last : bool then Evaluation.ret true
          else equal m (advance a 1) (advance b 1)
        else Evaluation.ret false
    | exist _ None _ => Evaluation.undefined }.
Next Obligation.
  intros m a x Hload; intros. simpl in Hload.
  unfold load in Hload. unfold extent, advance. simpl.
  destruct (m !! block a) as [chars|]; simpl in *; [|done].
  apply lookup_lt_Some in Hload. lia.
Qed.

(** The overload chosen for [K = const char*]. *)
Definition Equal_pointer (m : memory) : Equal pointer :=
  λ a b, Evaluation.result (equal m a b).

(** The characters of a null-terminated array, terminator excluded;
    [None] when the array holds no terminator. *)
Fixpoint until_terminator (chars : list ascii) : option (list ascii) :=
  match chars with
  | [] => None
  | c :: rest =>
      if Ascii.eqb c zero then Some []
      else cons c <$> until_terminator rest
  end.

(** The null-terminated string [p] points to, if it points to one. *)
Definition c_str (m : memory) (p : pointer) : option (list ascii) :=
  chars ← m !! block p;
  until_terminator (drop (offset p) chars).

End cstring.

(** ** Vocabulary of the statements *)

Section vocabulary.
Context {K V : Type} `{!Equal K}.
Implicit Types (elements : list (K * V)) (key : K).

(** Comparing [key] with any stored key is defined. *)
Definition comparable elements key : Prop :=
  ∀ e, e ∈ elements → is_Some (equal e.1 key).

(** The keys stored at the indices [from], ..., [upto - 1] are not equal
    to [key]. *)
Definition differ elements key (from upto : nat) : Prop :=
  ∀ j e, from ≤ j < upto → elements !! j = Some e →
         equal e.1 key = Some false.

(** [e], at index [p], is the first entry from index [from] on whose key
    is equal to [key]. *)
Definition first_match elements key (from p : nat) (e : K * V) : Prop :=
  from ≤ p ∧ elements !! p = Some e ∧ equal e.1 key = Some true ∧
  differ elements key from p.

End vocabulary.

(** ** The example programs *)

Module example.
Import String.StringSyntax.

(** [int], and [int{}] *)
Definition int := Z.
Definition int_init : DefaultConstructible int := 0%Z.

(** The string literals of [example_simple], one array each: the keys of
    the two initialisers first, the arguments of the look-ups next. *)
Definition literals : cstring.memory :=
  [cstring.literal "key1"; cstring.literal "key2";
   cstring.literal "key1"; cstring.literal "key2"; cstring.literal "key3"].

Definition Equal_literals : Equal cstring.pointer :=
  cstring.Equal_pointer literals.

Definition stored_key1 := cstring.Pointer 0 0.
Definition stored_key2 := cstring.Pointer 1 0.
Definition key1 := cstring.Pointer 2 0.
Definition key2 := cstring.Pointer 3 0.
Definition key3 := cstring.Pointer 4 0.

(** [hash_map<2, const char*, int> map { make_pair("key1", 1),
    make_pair("key2", 2) }] *)
Definition simple_elements : list (cstring.pointer * int) :=
  [(stored_key1, 1%Z); (stored_key2, 2%Z)].

Definition simple_map : ct.hash_map 2 cstring.pointer int :=
  ct.HashMap [# (stored_key1, 1%Z); (stored_key2, 2%Z)].

(** [std::string_view]: compared by content by its [operator==]. *)
Definition string_view := String.string.
Definition Equal_string_view : Equal string_view := equal_generic String.eqb.
Definition string_view_init : DefaultConstructible string_view :=
  String.EmptyString.

(** [hash_map<3, std::string_view, std::string_view>] of
    [example_advanced]. *)
Definition advanced_elements : list (string_view * string_view) :=
  [("key1", "value1"); ("key2", "value2"); ("key3", "value3")]%string.

Definition advanced_map : ct.hash_map 3 string_view string_view :=
  ct.HashMap [# ("key1", "value1"); ("key2", "value2");
                ("key3", "value3")]%string.

(** A container whose first and last keys are the same. *)
Definition Equal_int : Equal int := equal_generic Z.eqb.

Definition duplicate_elements : list (int * int) :=
  [(7, 10); (8, 20); (7, 30)]%Z.

Definition duplicate_map : ct.hash_map 3 int int :=
  ct.HashMap [# (7, 10); (8, 20); (7, 30)]%Z.

End example.

(** ** The first revision of the container

    In its first revision the container compares keys with their
    [operator==] and its [at] throws when the key is missing. *)

(** [operator==] of the key type. *)
Class EqualityComparable (K : Type) := operator_eq : K → K → bool.

(** [operator==] of [const char*]: the same array at the same offset. *)
Definition pointer_operator_eq : EqualityComparable cstring.pointer :=
  λ a b, (cstring.block a =? cstring.block b)
         && (cstring.offset a =? cstring.offset b).

(** [std::out_of_range{what_arg}] *)
Inductive exception : Type :=
| out_of_range (what_arg : String.string).

(** How a call that may throw ends. *)
Inductive outcome (A : Type) : Type :=
| Returned (a : A)
| Thrown (e : exception).
Arguments Returned {A} _.
Arguments Thrown {A} _.

Module v1.
Import String.StringSyntax.

Record hash_map (N : nat) (K V : Type) : Type := HashMap {
  data : vec (K * V) N
}.
Arguments HashMap {N K V} _.
Arguments data {N K V} _.

Section members.
Context {K V : Type} `{!EqualityComparable K}.

Definition make (N : nat) (elements : list (K * V))
  : option (hash_map N K V) :=
  _ ← static_assert (0 <? N);
  _ ← static_assert (N =? length elements);
  HashMap <$> array_init N elements.

Context {N : nat} (self : hash_map N K V).

(** [std::cbegin(data)], [std::cend(data)] and [std::next(it, n)] *)
Definition std_cbegin : ct.const_iterator := 0.
Definition std_cend : ct.const_iterator := length (vec_to_list (data self)).
Definition std_next (it : ct.const_iterator) (n : nat) : ct.const_iterator :=
  it + n.

Definition subscript (i : nat) : Evaluation.t (K * V) :=
  Evaluation.load (vec_to_list (data self) !! i).
Definition deref (it : ct.const_iterator) : Evaluation.t (K * V) :=
  Evaluation.load (vec_to_list (data self) !! (it : nat)).

Equations search (L R : nat) (key : K) : Evaluation.t ct.const_iterator
  by wf (R - L) lt :=
  search L R key with decide (L < R) := {
    | left _ =>
        e ←' subscript L;
        b ←' Evaluation.compare (Some (operator_eq e.1 key));
        if b : bool then Evaluation.ret (std_next std_cbegin L)
        else search (S L) R key
    | right _ => Evaluation.ret std_cend }.
Next Obligation. lia. Qed.

Definition at_ (key : K) : Evaluation.t (outcome V) :=
  it ←' search 0 N key;
  if bool_decide (it ≠ std_cend) then
    e ←' deref it;
    Evaluation.ret (Returned e.2)
  else Evaluation.ret (Thrown (out_of_range "Element not found")).

Definition operator_subscript (key : K) : Evaluation.t (outcome V) :=
  at_ key.

Definition contains (key : K) : Evaluation.t bool :=
  it ←' search 0 N key;
  Evaluation.ret (bool_decide (it ≠ std_cend)).

Definition size : nat := length (vec_to_list (data self)).

End members.
End v1.

(** Containers of the first revision with the initialisers of the
    examples. *)
Module example_v1.

Definition int_operator_eq : EqualityComparable example.int := Z.eqb.

Definition duplicate_map : v1.hash_map 3 example.int example.int :=
  v1.HashMap [# (7, 10); (8, 20); (7, 30)]%Z.

Definition simple_map : v1.hash_map 2 cstring.pointer example.int :=
  v1.HashMap [# (example.stored_key1, 1%Z); (example.stored_key2, 2%Z)].

End example_v1.

(** ** The evaluation monad *)

Section evaluation_facts.
Context {A B : Type}.

Lemma bind_load_Some (x : A) (f : A → Evaluation.t B) :
  Evaluation.bind (Evaluation.load (Some x)) f = f x.
Proof. unfold Evaluation.bind. simpl. by destruct (f x). Qed.

Lemma bind_ret (x : A) (f : A → Evaluation.t B) :
  Evaluation.bind (Evaluation.ret x) f = f x.
Proof. unfold Evaluation.bind. simpl. by destruct (f x). Qed.

Lemma bind_result (m : Evaluation.t A) (f : A → Evaluation.t B) x :
  Evaluation.result m = Some x →
  Evaluation.result (Evaluation.bind m f) = Evaluation.result (f x).
Proof. unfold Evaluation.bind. by intros ->. Qed.

Lemma bind_comparisons (m : Evaluation.t A) (f : A → Evaluation.t B) x :
  Evaluation.result m = Some x →
  Evaluation.comparisons (Evaluation.bind m f)
  = Evaluation.comparisons m + Evaluation.comparisons (f x).
Proof. unfold Evaluation.bind. by intros ->. Qed.

Lemma bind_undefined (m : Evaluation.t A) (f : A → Evaluation.t B) :
  Evaluation.result m = None →
  Evaluation.bind m f = Evaluation.Make None (Evaluation.comparisons m).
Proof. unfold Evaluation.bind. by intros ->. Qed.

End evaluation_facts.

(** ** Construction *)

Section construction.
Context {K V : Type}.

Lemma array_init_Some {A} N (elements : list A) (v : vec A N) :
  array_init N elements = Some v → vec_to_list v = elements.
Proof.
  revert elements v. induction N as [|n IH]; intros [|x rest] v; simpl; try done.
  - by intros [= <-].
  - destruct (array_init n rest) as [w|] eqn:Hw; simpl; [|done].
    intros [= <-]. simpl. f_equal. by apply IH.
Qed.

Lemma array_init_length {A} N (elements : list A) :
  length elements = N → is_Some (array_init N elements).
Proof.
  revert elements. induction N as [|n IH]; intros [|x rest]; simpl; try done.
  intros [= Hlen]. destruct (IH rest Hlen) as [w ->]. by eexists.
Qed.

Lemma make_Some N (elements : list (K * V)) (c : ct.hash_map N K V) :
  ct.make N elements = Some c →
  0 < N ∧ length elements = N ∧ vec_to_list (ct.data c) = elements.
Proof.
  unfold ct.make, static_assert.
  destruct (0 <? N) eqn:Hpos; simpl; [|done].
  destruct (N =? length elements) eqn:Hlen; simpl; [|done].
  destruct (array_init N elements) as [v|] eqn:Hv; simpl; [|done].
  intros [= <-]. simpl.
  apply Nat.ltb_lt in Hpos. apply Nat.eqb_eq in Hlen.
  split_and!; [done|done|]. by apply array_init_Some.
Qed.

End construction.

(** ** The scan *)

Section scan.
Context {K V : Type} `{!Equal K, !DefaultConstructible V}.
Context {N : nat} (self : ct.hash_map N K V).
Implicit Types (key : K) (L R p : nat).

Local Abbreviation elements := (vec_to_list (ct.data self)).

Lemma cend_N : ct.cend self = N.
Proof. unfold ct.cend. apply length_vec_to_list. Qed.

Lemma search_unfolding L R key :
  ct.search self L R key =
  if decide (L < R) then
    e ←' ct.subscript self L;
    b ←' Evaluation.compare (equal e.1 key);
    if b : bool then Evaluation.ret (ct.next (ct.cbegin self) L)
    else ct.search self (S L) R key
  else Evaluation.ret (ct.cend self).
Proof.
  rewrite (ct.search_equation_1 self L R key).
  by destruct (decide (L < R)).
Qed.

Lemma search_step_match L key e :
  elements !! L = Some e → equal e.1 key = Some true →
  ct.search self L N key = Evaluation.Make (Some L) 1.
Proof.
  intros Hl He. rewrite search_unfolding.
  pose proof (lookup_lt_Some _ _ _ Hl) as Hlt.
  rewrite length_vec_to_list in Hlt.
  rewrite decide_True by done.
  unfold ct.subscript. rewrite Hl, bind_load_Some, He. done.
Qed.

Lemma search_step_differ L key e :
  elements !! L = Some e → equal e.1 key = Some false →
  ct.search self L N key =
  Evaluation.Make (Evaluation.result (ct.search self (S L) N key))
                  (S (Evaluation.comparisons (ct.search self (S L) N key))).
Proof.
  intros Hl He. rewrite (search_unfolding L).
  pose proof (lookup_lt_Some _ _ _ Hl) as Hlt.
  rewrite length_vec_to_list in Hlt.
  rewrite decide_True by done.
  unfold ct.subscript. rewrite Hl, bind_load_Some, He. done.
Qed.

Lemma search_first_match L p key e :
  first_match elements key L p e →
  ct.search self L N key = Evaluation.Make (Some p) (p - L + 1).
Proof.
  intros (Hle & Hp & He & Hdiff).
  remember (p - L) as d eqn:Hd. revert L Hle Hdiff Hd.
  induction d as [|d IH]; intros L Hle Hdiff Hd.
  - assert (L = p) as -> by lia. by apply (search_step_match p key e).
  - pose proof (lookup_lt_Some _ _ _ Hp) as Hlt.
    destruct (lookup_lt_is_Some_2 elements L) as [e' He']; [lia|].
    rewrite (search_step_differ L key e' He'); [|apply (Hdiff L e'); [lia|done]].
    rewrite (IH (S L)); [simpl; f_equal; lia|lia| |lia].
    intros j e'' Hj. apply Hdiff. lia.
Qed.

Lemma search_no_match L key :
  L ≤ N → differ elements key L N →
  ct.search self L N key = Evaluation.Make (Some N) (N - L).
Proof.
  intros Hle Hdiff.
  remember (N - L) as d eqn:Hd. revert L Hle Hdiff Hd.
  induction d as [|d IH]; intros L Hle Hdiff Hd.
  - rewrite search_unfolding, decide_False by lia. by rewrite cend_N.
  - destruct (lookup_lt_is_Some_2 elements L) as [e' He'].
    { rewrite length_vec_to_list. lia. }
    rewrite (search_step_differ L key e' He'); [|apply (Hdiff L e'); [lia|done]].
    rewrite (IH (S L)); [done|lia| |lia].
    intros j e'' Hj. apply Hdiff. lia.
Qed.

(** When every comparison is defined, the scan from [L] meets a first
    match or none at all. *)
Lemma scan_cases L key :
  comparable elements key → L ≤ N →
  (∃ p e, first_match elements key L p e) ∨ differ elements key L N.
Proof.
  intros Hcmp Hle.
  remember (N - L) as d eqn:Hd. revert L Hle Hd.
  induction d as [|d IH]; intros L Hle Hd.
  - right. intros j e Hj. lia.
  - destruct (lookup_lt_is_Some_2 elements L) as [e He].
    { rewrite length_vec_to_list. lia. }
    destruct (Hcmp e) as [[] Hb]; [by eapply list_elem_of_lookup_2|..].
    + left. exists L, e. split_and!; [done|done|done|].
      intros j e' Hj. lia.
    + destruct (IH (S L)) as [(p & e' & Hp1 & Hp2 & Hp3 & Hp4)|Hnone];
        [lia|lia|..].
      * left. exists p, e'. split_and!; [lia|done|done|].
        intros j e'' Hj Hj'. destruct (decide (j = L)) as [->|].
        -- by simplify_eq.
        -- apply (Hp4 j); [lia|done].
      * right. intros j e' Hj Hj'. destruct (decide (j = L)) as [->|].
        -- by simplify_eq.
        -- apply (Hnone j); [lia|done].
Qed.

Lemma search_comparisons_bound L R key :
  Evaluation.comparisons (ct.search self L R key) ≤ R - L.
Proof.
  remember (R - L) as d eqn:Hd. revert L Hd.
  induction d as [|d IH]; intros L Hd; rewrite search_unfolding.
  - rewrite decide_False by lia. done.
  - rewrite decide_True by lia.
    unfold ct.subscript, Evaluation.bind. simpl.
    destruct (elements !! L) as [e|]; simpl; [|lia].
    destruct (equal e.1 key) as [[]|]; simpl; [lia| |lia].
    specialize (IH (S L)). lia.
Qed.

End scan.

(** ** The lookups, from the outcome of the scan *)

Section lookup.
Context {K V : Type} `{!Equal K, !DefaultConstructible V}.
Context {N : nat} (self : ct.hash_map N K V).
Implicit Types (key : K) (L R p : nat).

Local Abbreviation elements := (vec_to_list (ct.data self)).

Lemma search_result_inv L p key :
  L ≤ N →
  Evaluation.result (ct.search self L N key) = Some p →
  (∃ e, first_match elements key L p e) ∨ (p = N ∧ differ elements key L N).
Proof.
  intros Hle.
  remember (N - L) as d eqn:Hd. revert L Hle Hd.
  induction d as [|d IH]; intros L Hle Hd Hres.
  - rewrite search_unfolding, decide_False, cend_N in Hres by lia.
    simpl in Hres. injection Hres as <-.
    right. split; [done|]. intros j e Hj. lia.
  - destruct (lookup_lt_is_Some_2 elements L) as [e He].
    { rewrite length_vec_to_list. lia. }
    destruct (equal e.1 key) as [[]|] eqn:Hb.
    + rewrite (search_step_match self L key e He Hb) in Hres.
      simpl in Hres. injection Hres as <-.
      left. exists e. split_and!; [done|done|done|].
      intros j e' Hj. lia.
    + rewrite (search_step_differ self L key e He Hb) in Hres.
      simpl in Hres.
      destruct (IH (S L)) as [(e' & Hp1 & Hp2 & Hp3 & Hp4)|[-> Hnone]];
        [lia|lia|done|..].
      * left. exists e'. split_and!; [lia|done|done|].
        intros j e'' Hj Hj'. destruct (decide (j = L)) as [->|].
        -- by simplify_eq.
        -- apply (Hp4 j); [lia|done].
      * right. split; [done|].
        intros j e' Hj Hj'. destruct (decide (j = L)) as [->|].
        -- by simplify_eq.
        -- apply (Hnone j); [lia|done].
    + rewrite search_unfolding, decide_True in Hres by lia.
      unfold ct.subscript in Hres.
      rewrite He, bind_load_Some, Hb in Hres. done.
Qed.

(** The scan sees [key] through its comparisons with the stored keys. *)
Lemma search_ext L R key key' :
  (∀ e, e ∈ elements → equal e.1 key = equal e.1 key') →
  ct.search self L R key = ct.search self L R key'.
Proof.
  intros Hext.
  remember (R - L) as d eqn:Hd. revert L Hd.
  induction d as [|d IH]; intros L Hd; rewrite !(search_unfolding self L).
  - by rewrite !decide_False by lia.
  - rewrite !decide_True by lia. unfold ct.subscript.
    destruct (elements !! L) as [e|] eqn:He; [|done].
    rewrite !bind_load_Some, <-(Hext e) by (by eapply list_elem_of_lookup_2).
    unfold Evaluation.bind. simpl.
    destruct (equal e.1 key) as [[]|]; [done| |done].
    by rewrite (IH (S L)) by lia.
Qed.

Lemma find_found p e key :
  first_match elements key 0 p e →
  ct.find self key = Evaluation.Make (Some p) (p + 1).
Proof.
  intros Hm. unfold ct.find.
  rewrite (search_first_match self 0 p key e Hm). f_equal. lia.
Qed.

Lemma find_absent key :
  differ elements key 0 N →
  ct.find self key = Evaluation.Make (Some N) N.
Proof.
  intros Hd. unfold ct.find.
  rewrite (search_no_match self 0 key); [f_equal; lia|lia|done].
Qed.

Lemma first_match_in_range L p e key :
  first_match elements key L p e → p < N ∧ p ≠ ct.cend self.
Proof.
  intros (_ & Hp & _). apply lookup_lt_Some in Hp.
  rewrite cend_N. rewrite length_vec_to_list in Hp. lia.
Qed.

Lemma lookups_found p e key :
  first_match elements key 0 p e →
  Evaluation.result (ct.at_ self key) = Some (true, Live e.2) ∧
  Evaluation.result (ct.contains self key) = Some true ∧
  Evaluation.result (ct.deref self p) = Some e ∧
  Evaluation.result (ct.operator_subscript self key) = Some e.2.
Proof.
  intros Hm. pose proof (find_found p e key Hm) as Hfind.
  destruct (first_match_in_range 0 p e key Hm) as [Hlt Hne].
  destruct Hm as (_ & Hp & _).
  unfold ct.at_, ct.contains, ct.operator_subscript.
  fold (ct.find self key). rewrite Hfind.
  unfold Evaluation.bind, ct.deref. simpl.
  rewrite bool_decide_true by done. rewrite Hp. done.
Qed.

Lemma lookups_absent key :
  differ elements key 0 N →
  Evaluation.result (ct.at_ self key) = Some (false, Expired value_init) ∧
  Evaluation.result (ct.contains self key) = Some false ∧
  Evaluation.result (ct.deref self (ct.cend self)) = None ∧
  Evaluation.result (ct.operator_subscript self key) = None.
Proof.
  intros Hd. pose proof (find_absent key Hd) as Hfind.
  assert (elements !! N = None) as Hend.
  { apply lookup_ge_None. by rewrite length_vec_to_list. }
  unfold ct.at_, ct.contains, ct.operator_subscript.
  fold (ct.find self key). rewrite Hfind.
  unfold Evaluation.bind, ct.deref. simpl.
  rewrite cend_N, bool_decide_false by naive_solver. rewrite Hend. done.
Qed.

Lemma differ_all key :
  differ elements key 0 N ↔ ∀ e, e ∈ elements → equal e.1 key = Some false.
Proof.
  split.
  - intros Hd e [j Hj]%list_elem_of_lookup. apply (Hd j e); [|done].
    apply lookup_lt_Some in Hj. rewrite length_vec_to_list in Hj. lia.
  - intros Hall j e _ Hj. apply Hall. by eapply list_elem_of_lookup_2.
Qed.

Lemma lookup_comparisons_bound key :
  Evaluation.comparisons (ct.find self key) ≤ N ∧
  Evaluation.comparisons (ct.contains self key) ≤ N ∧
  Evaluation.comparisons (ct.at_ self key) ≤ N ∧
  Evaluation.comparisons (ct.operator_subscript self key) ≤ N.
Proof.
  pose proof (search_comparisons_bound self 0 N key) as Hb.
  unfold ct.at_, ct.contains, ct.operator_subscript, ct.find.
  unfold Evaluation.bind, ct.deref. simpl.
  destruct (ct.search self 0 N key) as [[p|] n]; simpl in *; [|lia].
  split_and!; [lia|lia|..].
  - case_bool_decide; simpl; [|lia].
    destruct (_ !! _); simpl; lia.
  - destruct (_ !! _); simpl; lia.
Qed.

End lookup.

(** ** Iteration *)

Section iteration.
Context {K V : Type} `{!Equal K, !DefaultConstructible V}.
Context {N : nat} (self : ct.hash_map N K V).

Local Abbreviation elements := (vec_to_list (ct.data self)).

(** The loop folds its body over the elements from [it] on. *)
Lemma range_for_foldl {A} (body : A → K * V → A) (it : nat) (acc : A) :
  it ≤ N →
  ct.range_for self body it acc
  = Evaluation.ret (foldl body acc (drop it elements)).
Proof.
  funelim (ct.range_for self body it acc); intros Hle.
  - subst it. unfold ct.end_, ct.cend. by rewrite drop_all.
  - match goal with Hl : _ = Some _ |- _ =>
      pose proof (lookup_lt_Some _ _ _ Hl) as Hlt;
      rewrite (drop_S _ _ _ Hl) end.
    rewrite length_vec_to_list in Hlt. simpl.
    match goal with IH : _ → ct.range_for _ _ _ _ = _ |- _ => apply IH end.
    lia.
  - match goal with Hl : _ = None |- _ =>
      pose proof (proj1 (lookup_ge_None _ _) Hl) as Hge;
      rewrite length_vec_to_list in Hge end.
    match goal with Hne : _ ≠ ct.end_ _ |- _ =>
      exfalso; apply Hne end.
    unfold ct.end_. rewrite cend_N. lia.
Qed.

Lemma foldl_collect (l acc : list (K * V)) :
  foldl (λ a e, a ++ [e]) acc l = acc ++ l.
Proof.
  revert acc. induction l as [|x l IH]; intros acc; simpl.
  - by rewrite app_nil_r.
  - rewrite IH. by rewrite <-app_assoc.
Qed.

Lemma for_each_elements :
  ct.for_each self = Evaluation.ret elements.
Proof.
  unfold ct.for_each, ct.begin, ct.cbegin.
  rewrite range_for_foldl by lia. by rewrite drop_0, foldl_collect.
Qed.

End iteration.

(** ** Comparison of null-terminated strings *)

Section strings.
Context (m : cstring.memory).
Implicit Types (a b p : cstring.pointer) (s : list ascii).

Lemma equal_unfolding a b (o : option ascii) :
  cstring.load m a = o →
  cstring.equal m a b =
  match o with
  | Some x =>
      y ←' Evaluation.load (cstring.load m b);
      same ←' Evaluation.compare (Some (Ascii.eqb x y));
      if same : bool then
        last ←' Evaluation.compare (Some (Ascii.eqb x zero));
        if last : bool then Evaluation.ret true
        else cstring.equal m (cstring.advance a 1) (cstring.advance b 1)
      else Evaluation.ret false
  | None => Evaluation.undefined
  end.
Proof.
  intros Hload. rewrite cstring.equal_equation_1.
  assert (inspect (cstring.load m a) = o ↾ Hload) as -> by (by destruct Hload).
  destruct o as [x|].
  - apply cstring.equal_clause_1_equation_1.
  - apply cstring.equal_clause_1_equation_2.
Qed.

Lemma c_str_nil p :
  cstring.c_str m p = Some [] → cstring.load m p = Some zero.
Proof.
  unfold cstring.c_str, cstring.load.
  destruct (m !! cstring.block p) as [chars|]; simpl; [|done].
  destruct (chars !! cstring.offset p) as [c|] eqn:Hc.
  - rewrite (drop_S _ _ _ Hc). simpl.
    destruct (Ascii.eqb c zero) eqn:Hz.
    + apply Ascii.eqb_eq in Hz. by subst.
    + by destruct (cstring.until_terminator _).
  - apply lookup_ge_None in Hc. by rewrite drop_ge.
Qed.

Lemma c_str_cons p x s :
  cstring.c_str m p = Some (x :: s) →
  cstring.load m p = Some x ∧ Ascii.eqb x zero = false ∧
  cstring.c_str m (cstring.advance p 1) = Some s.
Proof.
  unfold cstring.c_str, cstring.load, cstring.advance. simpl.
  destruct (m !! cstring.block p) as [chars|]; simpl; [|done].
  destruct (chars !! cstring.offset p) as [c|] eqn:Hc.
  - rewrite (drop_S _ _ _ Hc). simpl.
    destruct (Ascii.eqb c zero) eqn:Hz; [done|].
    rewrite Nat.add_1_r.
    destruct (cstring.until_terminator _) as [s'|]; simpl; [|done].
    by intros [= -> ->].
  - apply lookup_ge_None in Hc. by rewrite drop_ge.
Qed.

Lemma equal_c_str sa : ∀ a b sb,
  cstring.c_str m a = Some sa → cstring.c_str m b = Some sb →
  ∃ n, cstring.equal m a b = Evaluation.Make (Some (bool_decide (sa = sb))) n
       ∧ n ≤ 2 * (min (length sa) (length sb) + 1).
Proof.
  induction sa as [|x sa IH]; intros a b [|y sb] Ha Hb.
  - apply c_str_nil in Ha, Hb. rewrite (equal_unfolding a b _ Ha), Hb.
    exists 2. split; [done|simpl; lia].
  - apply c_str_nil in Ha. apply c_str_cons in Hb as (Hb & Hy & _).
    rewrite (equal_unfolding a b _ Ha), Hb, bind_load_Some.
    rewrite Ascii.eqb_sym, Hy.
    exists 1. split; [done|simpl; lia].
  - apply c_str_nil in Hb. apply c_str_cons in Ha as (Ha & Hx & _).
    rewrite (equal_unfolding a b _ Ha), Hb, bind_load_Some, Hx.
    exists 1. split; [done|simpl; lia].
  - apply c_str_cons in Ha as (Ha & Hx & Ha').
    apply c_str_cons in Hb as (Hb & Hy & Hb').
    rewrite (equal_unfolding a b _ Ha), Hb, bind_load_Some.
    destruct (Ascii.eqb x y) eqn:Hxy.
    + apply Ascii.eqb_eq in Hxy as <-. rewrite Hx.
      destruct (IH _ _ _ Ha' Hb') as (n & Hn & Hle). rewrite Hn.
      exists (2 + n). split; [|simpl in *; lia].
      unfold Evaluation.bind. simpl. f_equal. f_equal.
      apply bool_decide_ext. naive_solver.
    + exists 1. split; [|simpl; lia].
      unfold Evaluation.bind. simpl. f_equal. f_equal.
      symmetry. apply bool_decide_eq_false.
      intros [= ->]. by rewrite Ascii.eqb_refl in Hxy.
Qed.

Lemma Equal_pointer_c_str a b sa sb :
  cstring.c_str m a = Some sa → cstring.c_str m b = Some sb →
  @equal _ (cstring.Equal_pointer m) a b = Some (bool_decide (sa = sb)).
Proof.
  intros Ha Hb. unfold equal, cstring.Equal_pointer.
  by destruct (equal_c_str sa a b sb Ha Hb) as (n & -> & _).
Qed.

(** Stored keys and looked-up key that are strings can be compared. *)
Lemma strings_comparable {V} (elements : list (cstring.pointer * V)) key :
  (∀ e, e ∈ elements → is_Some (cstring.c_str m e.1)) →
  is_Some (cstring.c_str m key) →
  @comparable _ _ (cstring.Equal_pointer m) elements key.
Proof.
  intros Hkeys [s Hs] e [se Hse]%Hkeys.
  rewrite (Equal_pointer_c_str _ _ _ _ Hse Hs). by eexists.
Qed.

End strings.

(** ** The specification of the container *)

Section specification.
Context {K V : Type} `{!Equal K, !DefaultConstructible V}.
Implicit Types (elements : list (K * V)) (key : K).

(** A check of [comparable] that evaluates. *)
Lemma comparable_forallb elements key :
  forallb (λ e, bool_decide (is_Some (equal e.1 key))) elements = true →
  comparable elements key.
Proof.
  intros Hall e He. rewrite forallb_forall in Hall.
  apply list_elem_of_In, Hall in He. by apply bool_decide_eq_true in He.
Qed.

(** Key types compared with their own [operator==] are always comparable. *)
Lemma generic_comparable (eqb : K → K → bool) elements key :
  @comparable K V (equal_generic eqb) elements key.
Proof. intros e _. by eexists. Qed.

Lemma make_is_Some N elements :
  0 < N → length elements = N → is_Some (ct.make N elements).
Proof.
  intros Hpos Hlen. unfold ct.make, static_assert.
  apply Nat.ltb_lt in Hpos as ->. simpl.
  rewrite (proj2 (Nat.eqb_eq _ _) (eq_sym Hlen)). simpl.
  destruct (array_init_length N elements Hlen) as [v ->]. by eexists.
Qed.

(** The scan of a constructed container, in terms of the initialisers. *)
Lemma constructed_cases N elements (c : ct.hash_map N K V) key :
  ct.make N elements = Some c →
  comparable elements key →
  (∃ p e, first_match elements key 0 p e) ∨
  (∀ e, e ∈ elements → equal e.1 key = Some false).
Proof.
  intros (_ & _ & Hdata)%make_Some Hcmp. subst elements.
  destruct (scan_cases c 0 key Hcmp) as [Hm|Hd]; [lia|by left|right].
  by apply differ_all.
Qed.

(** C1 — [find] scans the stored sequence from left to right: when an entry
    has a key equal to [key] under the equality of the container, [find]
    returns the position [p] of the first such entry, having compared the
    keys at positions [0], ..., [p] and no other; when no entry has,
    it returns the end sentinel [cend()], having compared all [N] keys. *)
Theorem find_first_match N elements (c : ct.hash_map N K V) key :
  ct.make N elements = Some c →
  comparable elements key →
  (∃ p e, first_match elements key 0 p e ∧
          ct.find c key = Evaluation.Make (Some p) (p + 1))
  ∨ ((∀ e, e ∈ elements → equal e.1 key = Some false) ∧
     ct.find c key = Evaluation.Make (Some (ct.cend c)) N).
Proof.
  intros Hmake Hcmp.
  destruct (constructed_cases N elements c key Hmake Hcmp) as [(p & e & Hm)|Hno].
  - left. exists p, e. split; [done|].
    apply make_Some in Hmake as (_ & _ & <-). by apply (find_found c p e).
  - right. split; [done|].
    apply make_Some in Hmake as (_ & _ & <-).
    rewrite cend_N. by apply find_absent, differ_all.
Qed.

(** C2 — the checked lookup [at] on a missing key: when no stored key
    equals [key], [at] returns the flag [false] and, as the value, a
    reference to the temporary [V{}] of [return {false, {}}], which is
    destroyed when [at] returns: the pair does not hold a default value,
    and reading its second member is undefined. *)
Theorem at_miss_expired N elements (c : ct.hash_map N K V) key :
  ct.make N elements = Some c →
  (∀ e, e ∈ elements → equal e.1 key = Some false) →
  Evaluation.result (ct.at_ c key) = Some (false, Expired value_init) ∧
  Evaluation.result (r ←' ct.at_ c key; read r.2) = None.
Proof.
  intros (_ & _ & <-)%make_Some Hno.
  apply differ_all in Hno.
  destruct (lookups_absent c key Hno) as (Hat & _).
  split; [done|]. by rewrite (bind_result _ _ _ Hat).
Qed.

(** C3 — [contains] is [true] exactly when [find] returns a position other
    than the end sentinel, and [false] exactly when [find] returns the end
    sentinel; its result is a function of the stored pairs and of [key]:
    whether some stored key equals [key]. *)
Theorem contains_iff_find N elements (c : ct.hash_map N K V) key :
  ct.make N elements = Some c →
  comparable elements key →
  (Evaluation.result (ct.contains c key) = Some true ↔
   ∃ p, Evaluation.result (ct.find c key) = Some p ∧ p ≠ ct.cend c) ∧
  (Evaluation.result (ct.contains c key) = Some false ↔
   Evaluation.result (ct.find c key) = Some (ct.cend c)) ∧
  Evaluation.result (ct.contains c key)
  = Some (existsb (λ e, bool_decide (equal e.1 key = Some true)) elements).
Proof.
  intros Hmake Hcmp.
  assert (Evaluation.result (ct.contains c key)
          = (λ p, bool_decide (p ≠ ct.cend c))
              <$> Evaluation.result (ct.find c key)) as Hrel.
  { unfold ct.contains, ct.find, Evaluation.bind.
    by destruct (Evaluation.result (ct.search c 0 N key)). }
  split_and!.
  - rewrite Hrel. destruct (Evaluation.result (ct.find c key)) as [p|]; simpl.
    + split.
      * intros [= Hp%bool_decide_eq_true]. by exists p.
      * intros (q & [= <-] & Hq). by rewrite bool_decide_true.
    + split; [done|]. by intros (q & ? & _).
  - rewrite Hrel. destruct (Evaluation.result (ct.find c key)) as [p|]; simpl.
    + split.
      * intros [= Hp%bool_decide_eq_false]. f_equal.
        by destruct (decide (p = ct.cend c)).
      * intros [= ->]. rewrite bool_decide_false; [done|]. by intros [].
    + done.
  - destruct (constructed_cases N elements c key Hmake Hcmp)
      as [(p & e & Hm)|Hno].
    + pose proof Hm as (_ & He & Htrue & _).
      apply make_Some in Hmake as (_ & _ & <-).
      destruct (lookups_found c p e key Hm) as (_ & -> & _).
      f_equal. symmetry. apply existsb_exists. exists e. split.
      * by apply list_elem_of_In, list_elem_of_lookup_2 with p.
      * by apply bool_decide_eq_true.
    + pose proof Hno as Hd.
      apply make_Some in Hmake as (_ & _ & <-).
      apply differ_all in Hd.
      destruct (lookups_absent c key Hd) as (_ & -> & _).
      f_equal. symmetry. apply not_true_is_false.
      intros (e & He%list_elem_of_In & Ht%bool_decide_eq_true)%existsb_exists.
      rewrite (Hno e He) in Ht. done.
Qed.

(** C5 — construction is rejected whenever [N] is zero or the number of
    initialisers is not [N]: no container is built, neither from a truncated
    nor from a padded list of initialisers. *)
Theorem make_rejects N elements :
  N = 0 ∨ length elements ≠ N →
  @ct.make K V N elements = None.
Proof.
  intros Hbad. unfold ct.make, static_assert.
  destruct (0 <? N) eqn:Hpos; simpl; [|done].
  destruct (N =? length elements) eqn:Hlen; simpl; [|done].
  apply Nat.ltb_lt in Hpos. apply Nat.eqb_eq in Hlen.
  destruct Hbad; lia.
Qed.

(** C6 — when [contains(key)] holds, [operator[]] returns the value of the
    first entry whose key equals [key]; the position it dereferences is the
    one [find] returned, which is not the end sentinel.  The operator makes
    no check of its own: when [contains(key)] does not hold, it dereferences
    the end sentinel and its evaluation is undefined. *)
Theorem operator_subscript_unchecked N elements (c : ct.hash_map N K V) key :
  ct.make N elements = Some c →
  (Evaluation.result (ct.contains c key) = Some true →
   ∃ p e, first_match elements key 0 p e ∧
          Evaluation.result (ct.find c key) = Some p ∧
          p ≠ ct.cend c ∧
          Evaluation.result (ct.deref c p) = Some e ∧
          Evaluation.result (ct.operator_subscript c key) = Some e.2) ∧
  (Evaluation.result (ct.contains c key) = Some false →
   Evaluation.result (ct.find c key) = Some (ct.cend c) ∧
   Evaluation.result (ct.deref c (ct.cend c)) = None ∧
   Evaluation.result (ct.operator_subscript c key) = None).
Proof.
  intros (_ & _ & <-)%make_Some.
  assert (∀ b, Evaluation.result (ct.contains c key) = Some b →
            ∃ p, Evaluation.result (ct.find c key) = Some p ∧
                 b = bool_decide (p ≠ ct.cend c)) as Hinv.
  { intros b. unfold ct.contains, ct.find, Evaluation.bind.
    destruct (Evaluation.result (ct.search c 0 N key)) as [p|]; simpl; [|done].
    intros [= <-]. by exists p. }
  split; intros (p & Hfind & Hp)%Hinv.
  - symmetry in Hp. apply bool_decide_eq_true in Hp.
    destruct (search_result_inv c 0 p key) as [[e Hm]|[-> _]]; [lia|done|..].
    + exists p, e. split; [done|]. split; [done|]. split; [done|].
      by destruct (lookups_found c p e key Hm) as (_ & _ & -> & ->).
    + by rewrite cend_N in Hp.
  - symmetry in Hp. apply bool_decide_eq_false in Hp.
    assert (p = ct.cend c) as -> by (by destruct (decide (p = ct.cend c))).
    rewrite cend_N in Hfind.
    destruct (search_result_inv c 0 N key) as [[e Hm]|[_ Hd]]; [lia|done|..].
    + destruct (first_match_in_range c 0 N e key Hm). lia.
    + split; [by rewrite cend_N|].
      by destruct (lookups_absent c key Hd) as (_ & _ & -> & ->).
Qed.

(** C8 — a constructed container has [N >= 1] entries, [size()] returns
    [N], and [empty()] returns [false], which is whether [size()] is zero. *)
Theorem size_and_empty N elements (c : ct.hash_map N K V) :
  ct.make N elements = Some c →
  1 ≤ N ∧ ct.size c = N ∧ ct.size c = length elements ∧
  ct.empty c = false ∧ ct.empty c = bool_decide (ct.size c = 0).
Proof.
  intros (Hpos & Hlen & Hdata)%make_Some.
  assert (ct.size c = N) as Hsize by apply length_vec_to_list.
  split_and!; [lia|done|lia|done|].
  rewrite bool_decide_false; [done|lia].
Qed.

(** C10 — with duplicate keys too: when some entry (at any index [i]) has a
    key equal to [key], [find] returns the position of the leftmost such
    entry, and [contains], [at] and [operator[]] answer for that entry. *)
Theorem duplicate_keys_leftmost N elements (c : ct.hash_map N K V) key i d :
  ct.make N elements = Some c →
  comparable elements key →
  elements !! i = Some d →
  equal d.1 key = Some true →
  ∃ p e, p ≤ i ∧ first_match elements key 0 p e ∧
         Evaluation.result (ct.find c key) = Some p ∧
         Evaluation.result (ct.contains c key) = Some true ∧
         Evaluation.result (ct.at_ c key) = Some (true, Live e.2) ∧
         Evaluation.result (ct.operator_subscript c key) = Some e.2.
Proof.
  intros Hmake Hcmp Hi Hd.
  destruct (constructed_cases N elements c key Hmake Hcmp) as [(p & e & Hm)|Hno].
  - exists p, e.
    assert (p ≤ i) as Hle.
    { destruct (decide (p ≤ i)) as [|Hgt]; [done|].
      destruct Hm as (_ & _ & _ & Hdiff).
      rewrite (Hdiff i d) in Hd; [done|lia|done]. }
    split; [done|]. split; [done|].
    apply make_Some in Hmake as (_ & _ & <-).
    rewrite (find_found c p e key Hm). simpl.
    by destruct (lookups_found c p e key Hm) as (-> & -> & _ & ->).
  - rewrite (Hno d) in Hd; [done|]. by apply list_elem_of_lookup_2 with i.
Qed.

End specification.

Section iteration_specification.
Context {K V : Type} `{!Equal K, !DefaultConstructible V}.

(** C7 — iterating from [begin()] to [end()] visits exactly the [N]
    initialisers, in the order of construction (the [i]-th visited entry is
    the [i]-th initialiser), whatever the loop body does with them; the
    container is only read, so a second iteration visits the same
    sequence. *)
Theorem iteration_in_construction_order N (elements : list (K * V))
    (c : ct.hash_map N K V) :
  ct.make N elements = Some c →
  ct.for_each c = Evaluation.ret elements ∧
  length elements = N ∧
  ct.end_ c - ct.begin c = N ∧
  (∀ A (body : A → K * V → A) (acc : A),
     ct.range_for c body (ct.begin c) acc
     = Evaluation.ret (foldl body acc elements)) ∧
  (first ←' ct.for_each c; second ←' ct.for_each c;
   Evaluation.ret (first, second)) = Evaluation.ret (elements, elements).
Proof.
  intros (_ & Hlen & <-)%make_Some.
  split_and!.
  - apply for_each_elements.
  - done.
  - unfold ct.end_, ct.begin, ct.cbegin. rewrite cend_N. lia.
  - intros A body acc. unfold ct.begin, ct.cbegin.
    rewrite range_for_foldl by lia. by rewrite drop_0.
  - by rewrite !for_each_elements.
Qed.

End iteration_specification.

Section string_specification.
Context {K V : Type} `{!Equal K, !DefaultConstructible V}.

(** C4 — for two null-terminated strings, the equality used for keys of
    type [const char*] is [true] exactly when their characters, terminator
    included, are the same, wherever the two arrays are; look-ups in a
    container of string keys therefore give the same answer for any two
    pointers to equal strings. *)
Theorem string_keys_compared_by_content (m : cstring.memory)
    (a b : cstring.pointer) (sa sb : list ascii) :
  cstring.c_str m a = Some sa →
  cstring.c_str m b = Some sb →
  @equal _ (cstring.Equal_pointer m) a b
  = Some (bool_decide (sa ++ [zero] = sb ++ [zero])) ∧
  (sa ++ [zero] = sb ++ [zero] →
   ∀ N (c : ct.hash_map N cstring.pointer V),
     (∀ e, e ∈ vec_to_list (ct.data c) → is_Some (cstring.c_str m e.1)) →
     @ct.find _ _ (cstring.Equal_pointer m) N c a
     = @ct.find _ _ (cstring.Equal_pointer m) N c b ∧
     @ct.contains _ _ (cstring.Equal_pointer m) N c a
     = @ct.contains _ _ (cstring.Equal_pointer m) N c b).
Proof.
  intros Ha Hb. split.
  - rewrite (Equal_pointer_c_str m a b sa sb Ha Hb). f_equal.
    apply bool_decide_ext. split; [by intros ->|by intros ?%(inj (.++ [zero]))].
  - intros Hsame%(inj (.++ [zero])) N c Hkeys. subst sb.
    assert (∀ e, e ∈ vec_to_list (ct.data c) →
              @equal _ (cstring.Equal_pointer m) e.1 a
              = @equal _ (cstring.Equal_pointer m) e.1 b) as Hext.
    { intros e [se Hse]%Hkeys.
      by rewrite (Equal_pointer_c_str m _ _ _ _ Hse Ha),
                 (Equal_pointer_c_str m _ _ _ _ Hse Hb). }
    unfold ct.contains, ct.find.
    by rewrite (search_ext (Equal0:=cstring.Equal_pointer m) c 0 N a b Hext).
Qed.

(** C9 — every lookup ends: the scan of the index range from [L] to [R]
    makes at most [R - L] key comparisons, hence [find], [contains], [at]
    and [operator[]] at most [N], and the first three return a result;
    the comparison of two null-terminated strings returns after a number of
    character comparisons bounded by the length of the shorter one. *)
Theorem lookup_terminates N (elements : list (K * V)) (c : ct.hash_map N K V)
    (key : K) (m : cstring.memory) (a b : cstring.pointer)
    (sa sb : list ascii) :
  ct.make N elements = Some c →
  comparable elements key →
  cstring.c_str m a = Some sa →
  cstring.c_str m b = Some sb →
  (∀ L R, Evaluation.comparisons (ct.search c L R key) ≤ R - L) ∧
  (∃ p n, ct.find c key = Evaluation.Make (Some p) n ∧ n ≤ N) ∧
  (∃ r n, ct.contains c key = Evaluation.Make (Some r) n ∧ n ≤ N) ∧
  (∃ r n, ct.at_ c key = Evaluation.Make (Some r) n ∧ n ≤ N) ∧
  Evaluation.comparisons (ct.operator_subscript c key) ≤ N ∧
  (∃ r n, cstring.equal m a b = Evaluation.Make (Some r) n ∧
          n ≤ 2 * (min (length sa) (length sb) + 1)).
Proof.
  intros (_ & _ & <-)%make_Some Hcmp Ha Hb.
  destruct (lookup_comparisons_bound c key) as (Hfind & Hcont & Hat & Hsub).
  pose proof (scan_cases c 0 key Hcmp (Nat.le_0_l N)) as Hcases.
  assert (∀ A (x : Evaluation.t A) r,
            Evaluation.result x = Some r → Evaluation.comparisons x ≤ N →
            ∃ r n, x = Evaluation.Make (Some r) n ∧ n ≤ N) as Hpack.
  { intros A [o n] r. simpl. intros -> Hn. by exists r, n. }
  split_and!.
  - intros L R. apply search_comparisons_bound.
  - destruct Hcases as [(p & e & Hm)|Hd].
    + eapply Hpack; [|done]. by rewrite (find_found c p e key Hm).
    + eapply Hpack; [|done]. by rewrite (find_absent c key Hd).
  - destruct Hcases as [(p & e & Hm)|Hd]; (eapply Hpack; [|done]).
    + by destruct (lookups_found c p e key Hm) as (_ & -> & _).
    + by destruct (lookups_absent c key Hd) as (_ & -> & _).
  - destruct Hcases as [(p & e & Hm)|Hd]; (eapply Hpack; [|done]).
    + by destruct (lookups_found c p e key Hm) as (-> & _).
    + by destruct (lookups_absent c key Hd) as (-> & _).
  - done.
  - destruct (equal_c_str m sa a b sb Ha Hb) as (n & Hn & Hle). eauto.
Qed.

End string_specification.

(** ** Further laws of the lookups *)

Section lookup_laws.
Context {K V : Type} `{!Equal K, !DefaultConstructible V}.
Context {N : nat} (c : ct.hash_map N K V).
Implicit Types (key : K) (p : nat).

Local Abbreviation stored := (vec_to_list (ct.data c)).

Lemma find_result_cases key p :
  Evaluation.result (ct.find c key) = Some p →
  (∃ e, first_match stored key 0 p e) ∨ (p = N ∧ differ stored key 0 N).
Proof. apply search_result_inv. lia. Qed.

(** What [at], [contains] and [operator[]] make of the position [find]
    returned. *)
Lemma lookups_of_find key :
  ct.at_ c key =
    (it ←' ct.find c key;
     if bool_decide (it ≠ ct.cend c) then
       e ←' ct.deref c it; Evaluation.ret (true, Live e.2)
     else Evaluation.ret (false, Expired value_init)) ∧
  ct.contains c key =
    (it ←' ct.find c key; Evaluation.ret (bool_decide (it ≠ ct.cend c))) ∧
  ct.operator_subscript c key =
    (it ←' ct.find c key; e ←' ct.deref c it; Evaluation.ret e.2).
Proof. done. Qed.

Lemma deref_first_match key p e :
  first_match stored key 0 p e → ct.deref c p = Evaluation.load (Some e).
Proof. intros (_ & Hp & _). unfold ct.deref. by rewrite Hp. Qed.

Lemma deref_cend : ct.deref c N = Evaluation.load None.
Proof.
  unfold ct.deref. f_equal. apply lookup_ge_None.
  by rewrite length_vec_to_list.
Qed.

(** [find] never leaves the container: whatever the key, a position it
    returns is at most [cend()]; a position other than [cend()] can be
    dereferenced and holds a key equal to the one looked up, while [cend()]
    is returned only when every stored key differs from it. *)
Theorem find_in_bounds key p :
  Evaluation.result (ct.find c key) = Some p →
  p ≤ ct.cend c ∧
  (p ≠ ct.cend c →
   ∃ e, Evaluation.result (ct.deref c p) = Some e ∧
        equal e.1 key = Some true) ∧
  (p = ct.cend c → ∀ e, e ∈ stored → equal e.1 key = Some false).
Proof.
  intros [[e Hm]|[-> Hd]]%find_result_cases; rewrite cend_N.
  - destruct (first_match_in_range c 0 p e key Hm) as [Hlt _].
    split_and!; [lia| |lia].
    intros _. exists e. rewrite (deref_first_match key p e Hm).
    by destruct Hm as (_ & _ & ? & _).
  - split_and!; [done|done|]. intros _. by apply differ_all.
Qed.

(** [at] never answers with the value of another key: a flag [true] comes
    with a live reference to the value of the first entry whose key equals
    the key looked up; a flag [false] comes only when no stored key equals
    it, and then with a reference to the destroyed temporary [V{}], so that
    the second member of the pair can be read exactly when the flag is
    [true]. *)
Theorem at_sound key (flag : bool) (r : reference V) :
  Evaluation.result (ct.at_ c key) = Some (flag, r) →
  if flag then
    ∃ p e, first_match stored key 0 p e ∧ r = Live e.2 ∧
           Evaluation.result (read r) = Some e.2
  else (∀ e, e ∈ stored → equal e.1 key = Some false) ∧
       r = Expired value_init ∧ Evaluation.result (read r) = None.
Proof.
  destruct (lookups_of_find key) as (-> & _).
  destruct (Evaluation.result (ct.find c key)) as [p|] eqn:Hfind;
    [|by rewrite bind_undefined].
  rewrite (bind_result _ _ p Hfind).
  destruct (find_result_cases key p Hfind) as [[e Hm]|[-> Hd]].
  - destruct (first_match_in_range c 0 p e key Hm) as [_ Hne].
    rewrite bool_decide_true, (deref_first_match key p e Hm) by done.
    rewrite bind_load_Some. simpl. intros [= <- <-]. by exists p, e.
  - rewrite bool_decide_false by (rewrite cend_N; naive_solver).
    simpl. intros [= <- <-]. split; [|done]. by apply differ_all.
Qed.

(** The flag of [at] is the answer of [contains], for every key, and the
    one is defined exactly when the other is. *)
Theorem at_flag_is_contains key :
  fst <$> Evaluation.result (ct.at_ c key)
  = Evaluation.result (ct.contains c key).
Proof.
  destruct (lookups_of_find key) as (-> & -> & _).
  destruct (Evaluation.result (ct.find c key)) as [p|] eqn:Hfind;
    [|by rewrite !bind_undefined].
  rewrite !(bind_result _ _ p Hfind).
  destruct (find_result_cases key p Hfind) as [[e Hm]|[-> Hd]].
  - destruct (first_match_in_range c 0 p e key Hm) as [_ Hne].
    rewrite bool_decide_true, (deref_first_match key p e Hm) by done.
    by rewrite bind_load_Some.
  - by rewrite bool_decide_false by (rewrite cend_N; naive_solver).
Qed.

(** [operator[]] is defined exactly when [at] reports the key as found,
    and then returns the value [at] returns. *)
Theorem operator_subscript_iff_at key (v : V) :
  Evaluation.result (ct.operator_subscript c key) = Some v ↔
  Evaluation.result (ct.at_ c key) = Some (true, Live v).
Proof.
  destruct (lookups_of_find key) as (-> & _ & ->).
  destruct (Evaluation.result (ct.find c key)) as [p|] eqn:Hfind;
    [|by rewrite !bind_undefined].
  rewrite !(bind_result _ _ p Hfind).
  destruct (find_result_cases key p Hfind) as [[e Hm]|[-> Hd]].
  - destruct (first_match_in_range c 0 p e key Hm) as [_ Hne].
    rewrite bool_decide_true, (deref_first_match key p e Hm) by done.
    rewrite !bind_load_Some. simpl. naive_solver.
  - rewrite bool_decide_false by (rewrite cend_N; naive_solver).
    rewrite deref_cend, bind_undefined by done. simpl. naive_solver.
Qed.

(** [contains], [at] and [operator[]] scan the container once: each makes
    exactly the key comparisons [find] makes. *)
Theorem lookups_scan_once key :
  Evaluation.comparisons (ct.contains c key)
  = Evaluation.comparisons (ct.find c key) ∧
  Evaluation.comparisons (ct.at_ c key)
  = Evaluation.comparisons (ct.find c key) ∧
  Evaluation.comparisons (ct.operator_subscript c key)
  = Evaluation.comparisons (ct.find c key).
Proof.
  destruct (lookups_of_find key) as (-> & -> & ->).
  unfold Evaluation.bind, ct.deref.
  destruct (ct.find c key) as [[p|] n]; simpl; [|done].
  split_and!; [lia|..].
  - case_bool_decide; simpl; [|lia]. destruct (_ !! _); simpl; lia.
  - destruct (_ !! _); simpl; lia.
Qed.

End lookup_laws.

(** ** Construction and retrieval *)

Section retrieval.
Context {K V : Type} `{!Equal K, !DefaultConstructible V}.
Implicit Types (elements : list (K * V)) (key : K).

(** Construction succeeds for every list of [N >= 1] initialisers, and the
    container then holds these initialisers, in their order, and no other
    entry. *)
Theorem make_succeeds N elements :
  1 ≤ N → length elements = N →
  ∃ c : ct.hash_map N K V,
    ct.make N elements = Some c ∧
    vec_to_list (ct.data c) = elements ∧
    ct.size c = length elements.
Proof.
  intros Hpos Hlen.
  destruct (make_is_Some (V:=V) N elements) as [c Hc]; [lia|done|].
  exists c. split; [done|].
  apply make_Some in Hc as (_ & _ & Hdata).
  split; [done|]. unfold ct.size. by rewrite Hdata.
Qed.

(** An initialiser whose key equals itself and differs from the keys of all
    other initialisers is retrieved by every lookup: [find] returns its
    index, [contains] holds, [at] and [operator[]] return its value. *)
Theorem unique_key_round_trip N elements (c : ct.hash_map N K V) i e :
  ct.make N elements = Some c →
  elements !! i = Some e →
  (∀ j ej, elements !! j = Some ej →
           equal ej.1 e.1 = Some (bool_decide (j = i))) →
  ct.find c e.1 = Evaluation.Make (Some i) (i + 1) ∧
  Evaluation.result (ct.contains c e.1) = Some true ∧
  Evaluation.result (ct.at_ c e.1) = Some (true, Live e.2) ∧
  Evaluation.result (ct.operator_subscript c e.1) = Some e.2.
Proof.
  intros (_ & _ & <-)%make_Some Hi Huniq.
  assert (first_match (vec_to_list (ct.data c)) e.1 0 i e) as Hm.
  { split_and!; [lia|done|..].
    - rewrite (Huniq i e Hi). by rewrite bool_decide_true.
    - intros j ej Hj Hej. rewrite (Huniq j ej Hej).
      rewrite bool_decide_false; [done|lia]. }
  split; [by apply (find_found c i e)|].
  by destruct (lookups_found c i e e.1 Hm) as (-> & -> & _ & ->).
Qed.

End retrieval.

Section string_retrieval.
Context {V : Type} `{!DefaultConstructible V}.

(** In a container of string keys, a key whose text no other key has is
    retrieved with any pointer to a string of that text, be it in another
    array: [find] returns its index, [at] and [operator[]] its value. *)
Theorem string_key_round_trip (m : cstring.memory) N
    (elements : list (cstring.pointer * V))
    (c : ct.hash_map N cstring.pointer V) i e (b : cstring.pointer)
    (s : list ascii) :
  ct.make N elements = Some c →
  elements !! i = Some e →
  (∀ j ej, elements !! j = Some ej →
           ∃ sj, cstring.c_str m ej.1 = Some sj ∧ (sj = s ↔ j = i)) →
  cstring.c_str m b = Some s →
  @ct.find _ _ (cstring.Equal_pointer m) N c b
  = Evaluation.Make (Some i) (i + 1) ∧
  Evaluation.result (@ct.at_ _ _ (cstring.Equal_pointer m) N c _ b)
  = Some (true, Live e.2) ∧
  Evaluation.result
    (@ct.operator_subscript _ _ (cstring.Equal_pointer m) N c b)
  = Some e.2.
Proof.
  intros (_ & _ & <-)%make_Some Hi Htexts Hb.
  assert (@first_match _ _ (cstring.Equal_pointer m)
            (vec_to_list (ct.data c)) b 0 i e) as Hm.
  { split_and!; [lia|done|..].
    - destruct (Htexts i e Hi) as (si & Hsi & Hiff).
      rewrite (Equal_pointer_c_str m _ _ _ _ Hsi Hb).
      rewrite bool_decide_true; [done|]. by apply Hiff.
    - intros j ej Hj Hej.
      destruct (Htexts j ej Hej) as (sj & Hsj & Hiff).
      rewrite (Equal_pointer_c_str m _ _ _ _ Hsj Hb).
      rewrite bool_decide_false; [done|]. intros ?%Hiff. lia. }
  split; [by apply (find_found (Equal0:=cstring.Equal_pointer m) c i e)|].
  by destruct (lookups_found (Equal0:=cstring.Equal_pointer m) c i e b Hm)
    as (-> & _ & _ & ->).
Qed.

End string_retrieval.

(** ** The scan over a part of the array, and loops from any position *)

Section ranges.
Context {K V : Type} `{!Equal K, !DefaultConstructible V}.
Context {N : nat} (c : ct.hash_map N K V).
Implicit Types (key : K) (L R p : nat).

Local Abbreviation stored := (vec_to_list (ct.data c)).

Lemma search_range_step L R key e :
  L < R → stored !! L = Some e →
  ct.search c L R key =
  match equal e.1 key with
  | Some true => Evaluation.Make (Some L) 1
  | Some false =>
      Evaluation.Make (Evaluation.result (ct.search c (S L) R key))
                      (S (Evaluation.comparisons (ct.search c (S L) R key)))
  | None => Evaluation.Make None 1
  end.
Proof.
  intros Hlt He. rewrite (search_unfolding c L), decide_True by done.
  unfold ct.subscript. rewrite He, bind_load_Some.
  by destruct (equal e.1 key) as [[]|].
Qed.

(** [search<L, R>] with [R <= N] examines the keys at [L], ..., [R - 1]
    only: it returns the position of the first of them equal to the key, and
    the end of the whole container, not [R], when none of them is. *)
Theorem search_subrange L R key :
  L ≤ R → R ≤ N → comparable stored key →
  (∃ p e, p < R ∧ first_match stored key L p e ∧
          ct.search c L R key = Evaluation.Make (Some p) (p - L + 1))
  ∨ (differ stored key L R ∧
     ct.search c L R key = Evaluation.Make (Some (ct.cend c)) (R - L)).
Proof.
  intros Hle HR Hcmp.
  remember (R - L) as d eqn:Hd. revert L Hle Hd.
  induction d as [|d IH]; intros L Hle Hd.
  - right. split; [intros j e Hj; lia|].
    rewrite search_unfolding, decide_False by lia. done.
  - destruct (lookup_lt_is_Some_2 stored L) as [e He].
    { rewrite length_vec_to_list. lia. }
    rewrite (search_range_step L R key e) by (done || lia).
    destruct (Hcmp e) as [[] Hb]; [by eapply list_elem_of_lookup_2|..];
      rewrite Hb.
    + left. exists L, e. split; [lia|]. split.
      * split_and!; [done|done|done|]. intros j e' Hj. lia.
      * f_equal; lia.
    + destruct (IH (S L)) as [(p & e' & Hp & Hm & ->)|[Hdiff ->]]; [lia|lia|..].
      * left. exists p, e'. split; [done|].
        destruct Hm as (Hp1 & Hp2 & Hp3 & Hp4). split.
        -- split_and!; [lia|done|done|].
           intros j e'' Hj Hj'. destruct (decide (j = L)) as [->|].
           ++ by simplify_eq.
           ++ apply (Hp4 j); [lia|done].
        -- simpl. f_equal; lia.
      * right. split.
        -- intros j e' Hj Hj'. destruct (decide (j = L)) as [->|].
           ++ by simplify_eq.
           ++ apply (Hdiff j); [lia|done].
        -- simpl. f_equal; lia.
Qed.

(** [search<L, R>] with [R] beyond [N] reads [data[N]] unless a key equal
    to the one looked up comes first: its evaluation is then undefined. *)
Theorem search_overrun L R key :
  L < R → N < R → differ stored key L N →
  ct.search c L R key = Evaluation.Make None (N - L).
Proof.
  intros Hlt HR Hdiff.
  remember (N - L) as d eqn:Hd. revert L Hlt Hdiff Hd.
  induction d as [|d IH]; intros L Hlt Hdiff Hd.
  - rewrite search_unfolding, decide_True by done.
    unfold ct.subscript.
    rewrite (proj2 (lookup_ge_None stored L)); [done|].
    rewrite length_vec_to_list. lia.
  - destruct (lookup_lt_is_Some_2 stored L) as [e He].
    { rewrite length_vec_to_list. lia. }
    rewrite (search_range_step L R key e) by done.
    rewrite (Hdiff L e) by (done || lia).
    rewrite (IH (S L)); [done|lia| |lia].
    intros j e' Hj. apply Hdiff. lia.
Qed.

(** A loop [for (; it != end(); ++it)] started at any position up to
    [end()] visits the entries from that position on, in order; started
    beyond [end()] it never meets [end()] and its evaluation is undefined. *)
Theorem range_for_from {A} (body : A → K * V → A) (it : nat) (acc : A) :
  (it ≤ N →
   ct.range_for c body it acc
   = Evaluation.ret (foldl body acc (drop it stored))) ∧
  (N < it → ct.range_for c body it acc = Evaluation.undefined).
Proof.
  split; [apply range_for_foldl|].
  funelim (ct.range_for c body it acc); intros Hlt.
  - match goal with Hend : ?x = ct.end_ _ |- _ =>
      assert (x = N) by (rewrite Hend; unfold ct.end_; apply cend_N) end.
    lia.
  - match goal with Hl : _ = Some _ |- _ =>
      pose proof (lookup_lt_Some _ _ _ Hl) as Hin end.
    rewrite length_vec_to_list in Hin. lia.
  - done.
Qed.

End ranges.

(** ** Laws of the comparison of strings *)

Section string_laws.
Context (m : cstring.memory).
Implicit Types (a b : cstring.pointer) (s : list ascii).

Lemma c_str_unfolding a x :
  cstring.load m a = Some x →
  cstring.c_str m a =
  if Ascii.eqb x zero then Some []
  else cons x <$> cstring.c_str m (cstring.advance a 1).
Proof.
  unfold cstring.c_str, cstring.load, cstring.advance. simpl.
  destruct (m !! cstring.block a) as [chars|]; simpl; [|done].
  intros Hc. rewrite (drop_S _ _ _ Hc). simpl. by rewrite Nat.add_1_r.
Qed.

Lemma c_str_load_None a :
  cstring.load m a = None → cstring.c_str m a = None.
Proof.
  unfold cstring.c_str, cstring.load.
  destruct (m !! cstring.block a) as [chars|]; simpl; [|done].
  intros Hc%lookup_ge_None. by rewrite drop_ge.
Qed.

Lemma load_beyond_extent a :
  cstring.extent m a - cstring.offset a = 0 → cstring.load m a = None.
Proof.
  unfold cstring.extent, cstring.load.
  destruct (m !! cstring.block a) as [chars|]; simpl; [|done].
  intros Hn. apply lookup_ge_None. lia.
Qed.

Lemma extent_advance a x n :
  cstring.load m a = Some x →
  cstring.extent m a - cstring.offset a = S n →
  cstring.extent m (cstring.advance a 1)
  - cstring.offset (cstring.advance a 1) = n.
Proof. unfold cstring.extent, cstring.advance. simpl. lia. Qed.

(** The comparison of two [const char*] does not depend on the order of
    its arguments: same result, defined or not, after the same number of
    character comparisons. *)
Theorem equal_symmetric a b :
  cstring.equal m a b = cstring.equal m b a.
Proof.
  remember (cstring.extent m a - cstring.offset a) as n eqn:Hn.
  symmetry in Hn. revert a b Hn.
  induction n as [|n IH]; intros a b Hn.
  - pose proof (load_beyond_extent a Hn) as Ha.
    rewrite (equal_unfolding m a b _ Ha).
    destruct (cstring.load m b) as [y|] eqn:Hb.
    + rewrite (equal_unfolding m b a _ Hb), Ha. done.
    + by rewrite (equal_unfolding m b a _ Hb).
  - destruct (cstring.load m a) as [x|] eqn:Ha.
    + rewrite (equal_unfolding m a b _ Ha).
      destruct (cstring.load m b) as [y|] eqn:Hb.
      * rewrite (equal_unfolding m b a _ Hb), Ha, !bind_load_Some.
        rewrite (Ascii.eqb_sym y x).
        destruct (Ascii.eqb x y) eqn:Hxy; [|done].
        apply Ascii.eqb_eq in Hxy as <-.
        unfold Evaluation.bind. simpl.
        destruct (Ascii.eqb x zero); [done|].
        by rewrite (IH _ _ (extent_advance a x n Ha Hn)).
      * by rewrite (equal_unfolding m b a _ Hb).
    + rewrite (equal_unfolding m a b _ Ha).
      destruct (cstring.load m b) as [y|] eqn:Hb.
      * rewrite (equal_unfolding m b a _ Hb), Ha. done.
      * by rewrite (equal_unfolding m b a _ Hb).
Qed.

(** Comparing a [const char*] with itself is [true] when it points to a
    null-terminated string, and undefined otherwise (dangling or
    past-the-end pointer, array without terminator). *)
Theorem equal_self_defined a :
  Evaluation.result (cstring.equal m a a)
  = (λ _, true) <$> cstring.c_str m a.
Proof.
  remember (cstring.extent m a - cstring.offset a) as n eqn:Hn.
  symmetry in Hn. revert a Hn.
  induction n as [|n IH]; intros a Hn.
  - pose proof (load_beyond_extent a Hn) as Ha.
    by rewrite (equal_unfolding m a a _ Ha), (c_str_load_None a Ha).
  - destruct (cstring.load m a) as [x|] eqn:Ha.
    + rewrite (equal_unfolding m a a _ Ha), Ha, bind_load_Some.
      rewrite (c_str_unfolding a x Ha), Ascii.eqb_refl.
      unfold Evaluation.bind. simpl.
      destruct (Ascii.eqb x zero); [done|]. simpl.
      rewrite (IH _ (extent_advance a x n Ha Hn)).
      by destruct (cstring.c_str m (cstring.advance a 1)).
    + by rewrite (equal_unfolding m a a _ Ha), (c_str_load_None a Ha).
Qed.

Lemma equal_true_upto n : ∀ a b,
  cstring.extent m a - cstring.offset a = n →
  Evaluation.result (cstring.equal m a b) = Some true →
  ∃ s, cstring.c_str m a = Some s ∧ cstring.c_str m b = Some s.
Proof.
  induction n as [|n IH]; intros a b Hn.
  - pose proof (load_beyond_extent a Hn) as Ha.
    by rewrite (equal_unfolding m a b _ Ha).
  - destruct (cstring.load m a) as [x|] eqn:Ha;
      rewrite (equal_unfolding m a b _ Ha); [|done].
    destruct (cstring.load m b) as [y|] eqn:Hb; [|done].
    rewrite bind_load_Some.
    destruct (Ascii.eqb x y) eqn:Hxy; [|done].
    apply Ascii.eqb_eq in Hxy as <-.
    rewrite (c_str_unfolding a x Ha), (c_str_unfolding b x Hb).
    unfold Evaluation.bind. simpl.
    destruct (Ascii.eqb x zero); simpl; [by exists []|].
    intros (s & -> & ->)%(IH _ _ (extent_advance a x n Ha Hn)).
    by exists (x :: s).
Qed.

(** The comparison answers [true] only for two null-terminated strings of
    the same text, and for all of these: it never takes an array without
    terminator, or a prefix of the other string, for an equal key. *)
Theorem equal_true_iff a b :
  Evaluation.result (cstring.equal m a b) = Some true ↔
  ∃ s, cstring.c_str m a = Some s ∧ cstring.c_str m b = Some s.
Proof.
  split; [by eapply equal_true_upto|].
  intros (s & Ha & Hb).
  destruct (equal_c_str m s a b s Ha Hb) as (n & -> & _).
  simpl. by rewrite bool_decide_true.
Qed.

End string_laws.

(** ** The first revision *)

Section first_revision.
Context {K V : Type} `{!EqualityComparable K}.
Context {N : nat}.
Implicit Types (old : v1.hash_map N K V) (key : K) (L R p : nat).

Lemma v1_search_unfolding old L R key :
  v1.search old L R key =
  if decide (L < R) then
    e ←' v1.subscript old L;
    b ←' Evaluation.compare (Some (operator_eq e.1 key));
    if b : bool then Evaluation.ret (v1.std_next v1.std_cbegin L)
    else v1.search old (S L) R key
  else Evaluation.ret (v1.std_cend old).
Proof.
  rewrite (v1.search_equation_1 old L R key).
  by destruct (decide (L < R)).
Qed.

Lemma v1_make_data elements old :
  v1.make N elements = Some old → vec_to_list (v1.data old) = elements.
Proof.
  unfold v1.make, static_assert.
  destruct (0 <? N); simpl; [|done].
  destruct (N =? length elements); simpl; [|done].
  destruct (array_init N elements) as [v|] eqn:Hv; simpl; [|done].
  intros [= <-]. by apply array_init_Some.
Qed.

(** The outcome of the scan of the first revision from [L] on. *)
Lemma v1_search_cases old key L :
  L ≤ N →
  (∃ p e, L ≤ p ∧ vec_to_list (v1.data old) !! p = Some e ∧
          operator_eq e.1 key = true ∧
          (∀ j ej, L ≤ j < p → vec_to_list (v1.data old) !! j = Some ej →
                   operator_eq ej.1 key = false) ∧
          v1.search old L N key = Evaluation.Make (Some p) (p - L + 1))
  ∨ ((∀ j ej, L ≤ j → vec_to_list (v1.data old) !! j = Some ej →
              operator_eq ej.1 key = false) ∧
     v1.search old L N key = Evaluation.Make (Some N) (N - L)).
Proof.
  intros Hle.
  remember (N - L) as d eqn:Hd. revert L Hle Hd.
  induction d as [|d IH]; intros L Hle Hd; rewrite v1_search_unfolding.
  - right. split.
    + intros j ej Hj Hl%lookup_lt_Some.
      rewrite length_vec_to_list in Hl. lia.
    + rewrite decide_False by lia. unfold v1.std_cend.
      by rewrite length_vec_to_list.
  - rewrite decide_True by lia. unfold v1.subscript.
    destruct (lookup_lt_is_Some_2 (vec_to_list (v1.data old)) L) as [e He].
    { rewrite length_vec_to_list. lia. }
    rewrite He, bind_load_Some. unfold Evaluation.bind. simpl.
    destruct (operator_eq e.1 key) eqn:Hb.
    + left. exists L, e. split_and!; [done|done|done| |].
      * intros j ej Hj. lia.
      * simpl. f_equal; lia.
    + destruct (IH (S L)) as [(p & e' & Hp1 & Hp2 & Hp3 & Hp4 & ->)|[Hall ->]];
        [lia|lia|..].
      * left. exists p, e'. split_and!; [lia|done|done| |].
        -- intros j ej Hj Hj'. destruct (decide (j = L)) as [->|].
           ++ by simplify_eq.
           ++ apply (Hp4 j); [lia|done].
        -- simpl. f_equal; lia.
      * right. split.
        -- intros j ej Hj Hj'. destruct (decide (j = L)) as [->|].
           ++ by simplify_eq.
           ++ apply (Hall j); [lia|done].
        -- simpl. f_equal; lia.
Qed.

Lemma v1_at_found old key p e n :
  vec_to_list (v1.data old) !! p = Some e →
  v1.search old 0 N key = Evaluation.Make (Some p) n →
  Evaluation.result (v1.at_ old key) = Some (Returned e.2) ∧
  Evaluation.result (v1.contains old key) = Some true.
Proof.
  intros Hp Hs. pose proof (lookup_lt_Some _ _ _ Hp) as Hlt.
  unfold v1.at_, v1.contains. rewrite Hs.
  unfold Evaluation.bind, v1.deref, v1.std_cend. simpl.
  rewrite bool_decide_true by lia. by rewrite Hp.
Qed.

Lemma v1_at_missing old key n :
  v1.search old 0 N key = Evaluation.Make (Some N) n →
  Evaluation.result (v1.at_ old key)
  = Some (Thrown (out_of_range "Element not found")) ∧
  Evaluation.result (v1.contains old key) = Some false.
Proof.
  intros Hs. unfold v1.at_, v1.contains. rewrite Hs.
  unfold Evaluation.bind, v1.std_cend. simpl.
  rewrite length_vec_to_list. by rewrite bool_decide_false by naive_solver.
Qed.

(** In the first revision [at] returns the value of the first entry whose
    key is [==] to the key looked up, and throws
    [std::out_of_range{"Element not found"}] when there is none;
    [operator[]] is checked too, it is [at]. *)
Theorem v1_at_returns_or_throws elements old key :
  v1.make N elements = Some old →
  (∃ p e, elements !! p = Some e ∧ operator_eq e.1 key = true ∧
          (∀ j ej, j < p → elements !! j = Some ej →
                   operator_eq ej.1 key = false) ∧
          Evaluation.result (v1.at_ old key) = Some (Returned e.2) ∧
          Evaluation.result (v1.operator_subscript old key)
          = Some (Returned e.2))
  ∨ ((∀ e, e ∈ elements → operator_eq e.1 key = false) ∧
     Evaluation.result (v1.at_ old key)
     = Some (Thrown (out_of_range "Element not found")) ∧
     Evaluation.result (v1.operator_subscript old key)
     = Some (Thrown (out_of_range "Element not found"))).
Proof.
  intros <-%v1_make_data. unfold v1.operator_subscript.
  destruct (v1_search_cases old key 0)
    as [(p & e & _ & Hp & He & Hd & Hs)|[Hd Hs]]; [lia|..].
  - left. exists p, e. split_and!; [done|done| |..].
    + intros j ej Hj. apply Hd. lia.
    + by destruct (v1_at_found old key p e _ Hp Hs) as [-> _].
    + by destruct (v1_at_found old key p e _ Hp Hs) as [-> _].
  - right. split.
    + intros e [j Hj]%list_elem_of_lookup. apply (Hd j e); [lia|done].
    + by destruct (v1_at_missing old key _ Hs) as [-> _].
Qed.

End first_revision.

Section first_revision_pointers.
Context {V : Type} {N : nat}.

Lemma pointer_operator_eq_true (a b : cstring.pointer) :
  pointer_operator_eq a b = true ↔ a = b.
Proof.
  destruct a as [ba oa], b as [bb ob]. unfold pointer_operator_eq. simpl.
  split.
  - intros [Hb%Nat.eqb_eq Ho%Nat.eqb_eq]%andb_true_iff. by subst.
  - intros [= -> ->]. by rewrite !Nat.eqb_refl.
Qed.

(** With keys of type [const char*] the first revision compares pointers:
    a key is found only through a pointer to the very place a stored key
    points to, whatever text other arrays hold. *)
Theorem v1_pointer_identity (elements : list (cstring.pointer * V))
    (old : v1.hash_map N cstring.pointer V) (b : cstring.pointer) :
  @v1.make _ V N elements = Some old →
  (Evaluation.result
     (@v1.contains _ _ pointer_operator_eq N old b) = Some true ↔
   ∃ e, e ∈ elements ∧ e.1 = b) ∧
  (Evaluation.result
     (@v1.contains _ _ pointer_operator_eq N old b) = Some false ↔
   ∀ e, e ∈ elements → e.1 ≠ b).
Proof.
  intros <-%(v1_make_data (EqualityComparable0:=pointer_operator_eq)).
  destruct (v1_search_cases (EqualityComparable0:=pointer_operator_eq)
              old b 0)
    as [(p & e & _ & Hp & He%pointer_operator_eq_true & _ & Hs)|[Hd Hs]];
    [lia|..].
  - destruct (v1_at_found (EqualityComparable0:=pointer_operator_eq)
                old b p e _ Hp Hs) as [_ ->].
    split; split; try done.
    + intros _. exists e. split; [|done]. by eapply list_elem_of_lookup_2.
    + intros Hall. destruct (Hall e); [|done]. by eapply list_elem_of_lookup_2.
  - destruct (v1_at_missing (EqualityComparable0:=pointer_operator_eq)
                old b _ Hs) as [_ ->].
    assert (∀ e, e ∈ vec_to_list (v1.data old) → e.1 ≠ b) as Hall.
    { intros e [j Hj]%list_elem_of_lookup Heq%pointer_operator_eq_true.
      assert (pointer_operator_eq e.1 b = false) as Hf
        by (apply (Hd j e); [lia|done]).
      congruence. }
    split; split; try done.
    intros (e & He & Heq). by destruct (Hall e He).
Qed.

End first_revision_pointers.

Section revisions.
Context {K V : Type} `{!EqualityComparable K, !DefaultConstructible V}.
Context {N : nat}.
Implicit Types (old : v1.hash_map N K V) (new : ct.hash_map N K V) (key : K).

(** The equality of the later revisions, for a key type compared with its
    [operator==]. *)
Local Abbreviation by_operator_eq := (equal_generic (operator_eq (K:=K))).

Lemma v1_search_agrees old new key :
  v1.data old = ct.data new →
  ∀ L R, v1.search old L R key
         = @ct.search K V by_operator_eq N new L R key.
Proof.
  intros Hdata L R.
  remember (R - L) as d eqn:Hd. revert L Hd.
  induction d as [|d IH]; intros L Hd;
    rewrite v1_search_unfolding, (search_unfolding (Equal0:=by_operator_eq)).
  - rewrite !decide_False by lia.
    unfold v1.std_cend, ct.cend. by rewrite Hdata.
  - rewrite !decide_True by lia.
    unfold v1.subscript, ct.subscript. rewrite Hdata.
    destruct (vec_to_list (ct.data new) !! L) as [e|]; [|done].
    rewrite !bind_load_Some. unfold equal, equal_generic, Evaluation.bind.
    simpl. destruct (operator_eq e.1 key); [done|].
    by rewrite (IH (S L)) by lia.
Qed.

(** The later revisions changed how a missing key is reported and nothing
    else, for key types compared with [operator==]: on the same
    initialisers [contains] is the same evaluation, [at] returns [true]
    with a live reference to [v] exactly when the first revision returned
    [v], [at] returns [false] with a reference to the destroyed temporary
    [V{}] exactly when the first revision threw, and [operator[]] is
    undefined exactly when the first revision threw. *)
Theorem revisions_agree elements old new key :
  v1.make N elements = Some old →
  ct.make N elements = Some new →
  v1.contains old key = @ct.contains K V by_operator_eq N new key ∧
  (∀ v, Evaluation.result (v1.at_ old key) = Some (Returned v) ↔
        Evaluation.result (@ct.at_ K V by_operator_eq N new _ key)
        = Some (true, Live v)) ∧
  (Evaluation.result (v1.at_ old key)
   = Some (Thrown (out_of_range "Element not found")) ↔
   Evaluation.result (@ct.at_ K V by_operator_eq N new _ key)
   = Some (false, Expired value_init)) ∧
  (Evaluation.result (v1.operator_subscript old key)
   = Some (Thrown (out_of_range "Element not found")) ↔
   Evaluation.result (@ct.operator_subscript K V by_operator_eq N new key)
   = None).
Proof.
  intros Hold%v1_make_data (_ & _ & Hnew)%make_Some.
  assert (v1.data old = ct.data new) as Hdata.
  { apply vec_to_list_inj2. by rewrite Hold, Hnew. }
  pose proof (v1_search_agrees old new key Hdata 0 N) as Hsearch.
  assert (v1.contains old key = @ct.contains K V by_operator_eq N new key)
    as Hcontains.
  { unfold v1.contains, ct.contains, v1.std_cend, ct.cend.
    by rewrite Hsearch, Hdata. }
  split; [done|]. unfold v1.operator_subscript.
  destruct (v1_search_cases old key 0)
    as [(p & e & _ & Hp & He & Hd & Hs)|[Hd Hs]]; [lia|..].
  - destruct (v1_at_found old key p e _ Hp Hs) as [Hat _].
    assert (@first_match K V by_operator_eq
              (vec_to_list (ct.data new)) key 0 p e) as Hm.
    { rewrite <-Hdata. split_and!; [lia|done|..].
      - unfold equal, equal_generic. by rewrite He.
      - intros j ej Hj Hej. unfold equal, equal_generic.
        by rewrite (Hd j ej Hj Hej). }
    destruct (lookups_found (Equal0:=by_operator_eq) new p e key Hm)
      as (Hat' & _ & _ & Hsub').
    rewrite Hat, Hat', Hsub'. split_and!; naive_solver.
  - destruct (v1_at_missing old key _ Hs) as [Hat _].
    assert (@differ K V by_operator_eq
              (vec_to_list (ct.data new)) key 0 N) as Hdiff.
    { rewrite <-Hdata. intros j ej Hj Hej. unfold equal, equal_generic.
      rewrite (Hd j ej); [done|lia|done]. }
    destruct (lookups_absent (Equal0:=by_operator_eq) new key Hdiff)
      as (Hat' & _ & _ & Hsub').
    rewrite Hat, Hat', Hsub'. split_and!; naive_solver.
Qed.

End revisions.

(** ** The example programs, evaluated *)

#[local] Existing Instance example.Equal_literals.
#[local] Existing Instance example.int_init.
#[local] Existing Instance example.Equal_string_view.
#[local] Existing Instance example.string_view_init.

Import String.StringSyntax.

(** The assertions of [example_simple]. *)
Example example_simple_asserts :
  ct.make 2 example.simple_elements = Some example.simple_map ∧
  ct.size example.simple_map = 2 ∧
  Evaluation.result (ct.contains example.simple_map example.key1) = Some true ∧
  Evaluation.result (ct.at_ example.simple_map example.key1)
  = Some (true, Live 1%Z) ∧
  Evaluation.result (ct.contains example.simple_map example.key2) = Some true ∧
  Evaluation.result (ct.operator_subscript example.simple_map example.key2)
  = Some 2%Z ∧
  Evaluation.result (ct.contains example.simple_map example.key3) = Some false ∧
  Evaluation.result (ct.operator_subscript example.simple_map example.key3)
  = None.
Proof. repeat split; reflexivity. Qed.

(** The assertions of [example_advanced]. *)
Example example_advanced_asserts :
  ct.make 3 example.advanced_elements = Some example.advanced_map ∧
  (∃ it, Evaluation.result (ct.find example.advanced_map "key2"%string)
         = Some it ∧
         it ≠ ct.cend example.advanced_map ∧
         snd <$> Evaluation.result (ct.deref example.advanced_map it)
         = Some "value2"%string) ∧
  ct.empty example.advanced_map = false ∧
  ct.size example.advanced_map = 3 ∧
  ct.for_each example.advanced_map = Evaluation.ret example.advanced_elements.
Proof.
  split_and!; try reflexivity.
  exists 1. split_and!; [reflexivity|by intros [=]|reflexivity].
Qed.

(** Look-ups of a key stored twice. *)
Example duplicate_map_lookups :
  ct.make 3 example.duplicate_elements = Some example.duplicate_map ∧
  @ct.find _ _ example.Equal_int 3 example.duplicate_map 7%Z
  = Evaluation.Make (Some 0) 1 ∧
  Evaluation.result
    (@ct.at_ _ _ example.Equal_int 3 example.duplicate_map
       example.int_init 7%Z) = Some (true, Live 10%Z) ∧
  Evaluation.result
    (@ct.operator_subscript _ _ example.Equal_int 3 example.duplicate_map 7%Z)
  = Some 10%Z.
Proof. repeat split; reflexivity. Qed.

Lemma find_first_match_witness :
  (∃ p e, first_match example.simple_elements example.key2 0 p e ∧
          ct.find example.simple_map example.key2
          = Evaluation.Make (Some p) (p + 1))
  ∨ ((∀ e, e ∈ example.simple_elements →
           equal e.1 example.key2 = Some false) ∧
     ct.find example.simple_map example.key2
     = Evaluation.Make (Some (ct.cend example.simple_map)) 2).
Proof.
  apply find_first_match;
    [reflexivity | apply comparable_forallb; reflexivity].
Defined.

Lemma at_miss_expired_witness :
  Evaluation.result (ct.at_ example.simple_map example.key3)
  = Some (false, Expired 0%Z) ∧
  Evaluation.result (r ←' ct.at_ example.simple_map example.key3; read r.2)
  = None.
Proof.
  apply (at_miss_expired 2 example.simple_elements example.simple_map
           example.key3); [reflexivity|].
  intros e He.
  repeat (apply elem_of_cons in He as [->|He]; [reflexivity|]).
  by apply elem_of_nil in He.
Defined.

Lemma contains_iff_find_witness :
  (Evaluation.result (ct.contains example.simple_map example.key1) = Some true ↔
   ∃ p, Evaluation.result (ct.find example.simple_map example.key1) = Some p ∧
        p ≠ ct.cend example.simple_map) ∧
  (Evaluation.result (ct.contains example.simple_map example.key1) = Some false ↔
   Evaluation.result (ct.find example.simple_map example.key1)
   = Some (ct.cend example.simple_map)) ∧
  Evaluation.result (ct.contains example.simple_map example.key1)
  = Some (existsb (λ e, bool_decide (equal e.1 example.key1 = Some true))
            example.simple_elements).
Proof.
  apply contains_iff_find;
    [reflexivity | apply comparable_forallb; reflexivity].
Defined.

Lemma make_rejects_witness :
  @ct.make cstring.pointer example.int 2 [(example.stored_key1, 1%Z)] = None.
Proof. apply make_rejects. right. simpl. lia. Defined.

Lemma operator_subscript_unchecked_witness :
  (∃ p e, first_match example.simple_elements example.key2 0 p e ∧
          Evaluation.result (ct.find example.simple_map example.key2) = Some p ∧
          p ≠ ct.cend example.simple_map ∧
          Evaluation.result (ct.deref example.simple_map p) = Some e ∧
          Evaluation.result
            (ct.operator_subscript example.simple_map example.key2)
          = Some e.2) ∧
  (Evaluation.result (ct.find example.simple_map example.key3)
   = Some (ct.cend example.simple_map) ∧
   Evaluation.result (ct.deref example.simple_map (ct.cend example.simple_map))
   = None ∧
   Evaluation.result (ct.operator_subscript example.simple_map example.key3)
   = None).
Proof.
  split.
  - apply (proj1 (operator_subscript_unchecked 2 example.simple_elements
                    example.simple_map example.key2 eq_refl)).
    reflexivity.
  - apply (proj2 (operator_subscript_unchecked 2 example.simple_elements
                    example.simple_map example.key3 eq_refl)).
    reflexivity.
Defined.

Lemma iteration_in_construction_order_witness :
  ct.for_each example.simple_map = Evaluation.ret example.simple_elements ∧
  length example.simple_elements = 2 ∧
  ct.end_ example.simple_map - ct.begin example.simple_map = 2 ∧
  (∀ A (body : A → cstring.pointer * example.int → A) (acc : A),
     ct.range_for example.simple_map body (ct.begin example.simple_map) acc
     = Evaluation.ret (foldl body acc example.simple_elements)) ∧
  (first ←' ct.for_each example.simple_map;
   second ←' ct.for_each example.simple_map;
   Evaluation.ret (first, second))
  = Evaluation.ret (example.simple_elements, example.simple_elements).
Proof. apply iteration_in_construction_order. reflexivity. Defined.

Lemma size_and_empty_witness :
  1 ≤ 2 ∧ ct.size example.simple_map = 2 ∧
  ct.size example.simple_map = length example.simple_elements ∧
  ct.empty example.simple_map = false ∧
  ct.empty example.simple_map = bool_decide (ct.size example.simple_map = 0).
Proof. apply size_and_empty. reflexivity. Defined.

Lemma string_keys_compared_by_content_witness :
  example.stored_key1 ≠ example.key1 ∧
  equal example.stored_key1 example.key1 = Some true ∧
  ct.contains example.simple_map example.stored_key1
  = ct.contains example.simple_map example.key1.
Proof.
  pose proof (string_keys_compared_by_content (V:=example.int)
    example.literals example.stored_key1 example.key1
    (String.list_ascii_of_string "key1") (String.list_ascii_of_string "key1")
    eq_refl eq_refl) as [Hequal Hlookup].
  split; [by intros [=]|]. split; [exact Hequal|].
  apply (Hlookup eq_refl 2 example.simple_map).
  intros e He.
  repeat (apply elem_of_cons in He as [->|He]; [by eexists|]).
  by apply elem_of_nil in He.
Defined.

Lemma lookup_terminates_witness :
  (∀ L R, Evaluation.comparisons
            (ct.search example.simple_map L R example.key3) ≤ R - L) ∧
  (∃ p n, ct.find example.simple_map example.key3
          = Evaluation.Make (Some p) n ∧ n ≤ 2) ∧
  (∃ r n, ct.contains example.simple_map example.key3
          = Evaluation.Make (Some r) n ∧ n ≤ 2) ∧
  (∃ r n, ct.at_ example.simple_map example.key3
          = Evaluation.Make (Some r) n ∧ n ≤ 2) ∧
  Evaluation.comparisons
    (ct.operator_subscript example.simple_map example.key3) ≤ 2 ∧
  (∃ r n, cstring.equal example.literals example.stored_key1 example.key3
          = Evaluation.Make (Some r) n ∧
          n ≤ 2 * (min 4 4 + 1)).
Proof.
  apply (lookup_terminates 2 example.simple_elements example.simple_map
           example.key3 example.literals example.stored_key1 example.key3
           (String.list_ascii_of_string "key1")
           (String.list_ascii_of_string "key3"));
    [reflexivity | apply comparable_forallb; reflexivity
    | reflexivity | reflexivity].
Defined.

Lemma duplicate_keys_leftmost_witness :
  ∃ p e, p ≤ 2 ∧
         @first_match _ _ example.Equal_int example.duplicate_elements
           7%Z 0 p e ∧
         Evaluation.result
           (@ct.find _ _ example.Equal_int 3 example.duplicate_map 7%Z)
         = Some p ∧
         Evaluation.result
           (@ct.contains _ _ example.Equal_int 3 example.duplicate_map 7%Z)
         = Some true ∧
         Evaluation.result
           (@ct.at_ _ _ example.Equal_int 3 example.duplicate_map
              example.int_init 7%Z)
         = Some (true, Live e.2) ∧
         Evaluation.result
           (@ct.operator_subscript _ _ example.Equal_int 3
              example.duplicate_map 7%Z)
         = Some e.2.
Proof.
  apply (duplicate_keys_leftmost (Equal0:=example.Equal_int) 3
           example.duplicate_elements example.duplicate_map 7%Z 2
           (7%Z, 30%Z));
    [reflexivity | apply comparable_forallb; reflexivity
    | reflexivity | reflexivity].
Defined.

(** ** The further laws on the example programs *)

Lemma find_in_bounds_witness :
  1 ≤ ct.cend example.simple_map ∧
  (1 ≠ ct.cend example.simple_map →
   ∃ e, Evaluation.result (ct.deref example.simple_map 1) = Some e ∧
        equal e.1 example.key2 = Some true) ∧
  (1 = ct.cend example.simple_map →
   ∀ e, e ∈ vec_to_list (ct.data example.simple_map) →
        equal e.1 example.key2 = Some false).
Proof.
  apply (find_in_bounds example.simple_map example.key2 1). reflexivity.
Defined.

Lemma at_sound_witness :
  (∀ e, e ∈ vec_to_list (ct.data example.simple_map) →
        equal e.1 example.key3 = Some false) ∧
  Expired 0%Z = Expired value_init ∧
  Evaluation.result (read (Expired 0%Z)) = None.
Proof.
  apply (at_sound example.simple_map example.key3 false (Expired 0%Z)).
  reflexivity.
Defined.

Lemma make_succeeds_witness :
  ∃ c : ct.hash_map 2 cstring.pointer example.int,
    ct.make 2 example.simple_elements = Some c ∧
    vec_to_list (ct.data c) = example.simple_elements ∧
    ct.size c = length example.simple_elements.
Proof. apply make_succeeds; [lia|reflexivity]. Defined.

Lemma unique_key_round_trip_witness :
  ct.find example.simple_map example.stored_key2
  = Evaluation.Make (Some 1) (1 + 1) ∧
  Evaluation.result (ct.contains example.simple_map example.stored_key2)
  = Some true ∧
  Evaluation.result (ct.at_ example.simple_map example.stored_key2)
  = Some (true, Live 2%Z) ∧
  Evaluation.result
    (ct.operator_subscript example.simple_map example.stored_key2)
  = Some 2%Z.
Proof.
  apply (unique_key_round_trip 2 example.simple_elements example.simple_map
           1 (example.stored_key2, 2%Z)); [reflexivity|reflexivity|].
  intros [|[|j]] ej; simpl; intros [= <-]; reflexivity.
Defined.

Lemma string_key_round_trip_witness :
  ct.find example.simple_map example.key1
  = Evaluation.Make (Some 0) (0 + 1) ∧
  Evaluation.result (ct.at_ example.simple_map example.key1)
  = Some (true, Live 1%Z) ∧
  Evaluation.result (ct.operator_subscript example.simple_map example.key1)
  = Some 1%Z.
Proof.
  apply (string_key_round_trip example.literals 2 example.simple_elements
           example.simple_map 0 (example.stored_key1, 1%Z) example.key1
           (String.list_ascii_of_string "key1"));
    [reflexivity|reflexivity| |reflexivity].
  intros [|[|j]] ej; simpl; intros [= <-]; eexists;
    (split; [reflexivity|split; [intros [=]|intros [=]]]); reflexivity.
Defined.

Lemma search_subrange_witness :
  (∃ p e, p < 1 ∧
          first_match (vec_to_list (ct.data example.simple_map))
            example.key2 0 p e ∧
          ct.search example.simple_map 0 1 example.key2
          = Evaluation.Make (Some p) (p - 0 + 1))
  ∨ (differ (vec_to_list (ct.data example.simple_map)) example.key2 0 1 ∧
     ct.search example.simple_map 0 1 example.key2
     = Evaluation.Make (Some (ct.cend example.simple_map)) (1 - 0)).
Proof.
  apply search_subrange; [lia|lia|].
  apply comparable_forallb. reflexivity.
Defined.

Lemma search_overrun_witness :
  ct.search example.simple_map 0 3 example.key3
  = Evaluation.Make None (2 - 0).
Proof.
  apply search_overrun; [lia|lia|].
  intros [|[|j]] e Hj; simpl; [intros [= <-]; reflexivity..|lia].
Defined.

Lemma v1_at_returns_or_throws_witness :
  (∃ p e, example.duplicate_elements !! p = Some e ∧
          Z.eqb e.1 9 = true ∧
          (∀ j ej, j < p → example.duplicate_elements !! j = Some ej →
                   Z.eqb ej.1 9 = false) ∧
          Evaluation.result
            (@v1.at_ _ _ example_v1.int_operator_eq 3
               example_v1.duplicate_map 9%Z) = Some (Returned e.2) ∧
          Evaluation.result
            (@v1.operator_subscript _ _ example_v1.int_operator_eq 3
               example_v1.duplicate_map 9%Z) = Some (Returned e.2))
  ∨ ((∀ e, e ∈ example.duplicate_elements → Z.eqb e.1 9 = false) ∧
     Evaluation.result
       (@v1.at_ _ _ example_v1.int_operator_eq 3
          example_v1.duplicate_map 9%Z)
     = Some (Thrown (out_of_range "Element not found")) ∧
     Evaluation.result
       (@v1.operator_subscript _ _ example_v1.int_operator_eq 3
          example_v1.duplicate_map 9%Z)
     = Some (Thrown (out_of_range "Element not found"))).
Proof.
  apply (v1_at_returns_or_throws
           (EqualityComparable0:=example_v1.int_operator_eq)
           example.duplicate_elements example_v1.duplicate_map 9%Z).
  reflexivity.
Defined.

Lemma revisions_agree_witness :
  @v1.contains _ _ example_v1.int_operator_eq 3 example_v1.duplicate_map 7%Z
  = @ct.contains _ _ (equal_generic Z.eqb) 3 example.duplicate_map 7%Z ∧
  (∀ v, Evaluation.result
          (@v1.at_ _ _ example_v1.int_operator_eq 3
             example_v1.duplicate_map 7%Z) = Some (Returned v) ↔
        Evaluation.result
          (@ct.at_ _ _ (equal_generic Z.eqb) 3 example.duplicate_map
             example.int_init 7%Z) = Some (true, Live v)) ∧
  (Evaluation.result
     (@v1.at_ _ _ example_v1.int_operator_eq 3 example_v1.duplicate_map 7%Z)
   = Some (Thrown (out_of_range "Element not found")) ↔
   Evaluation.result
     (@ct.at_ _ _ (equal_generic Z.eqb) 3 example.duplicate_map
        example.int_init 7%Z) = Some (false, Expired 0%Z)) ∧
  (Evaluation.result
     (@v1.operator_subscript _ _ example_v1.int_operator_eq 3
        example_v1.duplicate_map 7%Z)
   = Some (Thrown (out_of_range "Element not found")) ↔
   Evaluation.result
     (@ct.operator_subscript _ _ (equal_generic Z.eqb) 3
        example.duplicate_map 7%Z) = None).
Proof.
  apply (revisions_agree (EqualityComparable0:=example_v1.int_operator_eq)
           example.duplicate_elements example_v1.duplicate_map
           example.duplicate_map 7%Z); reflexivity.
Defined.

Lemma v1_pointer_identity_witness :
  (Evaluation.result
     (@v1.contains _ _ pointer_operator_eq 2 example_v1.simple_map
        example.key1) = Some true ↔
   ∃ e, e ∈ example.simple_elements ∧ e.1 = example.key1) ∧
  (Evaluation.result
     (@v1.contains _ _ pointer_operator_eq 2 example_v1.simple_map
        example.key1) = Some false ↔
   ∀ e, e ∈ example.simple_elements → e.1 ≠ example.key1).
Proof.
  apply (v1_pointer_identity example.simple_elements example_v1.simple_map
           example.key1).
  reflexivity.
Defined.
